(** * miniclap: a shallow embedding of [src/index.ts]

    The development follows the source top-down: the shell-like tokenizer
    [split], the data model ([Param], [Params], the raw object returned by
    the splitter), the two loops of [parse] and its outcome rule.

    Modelling conventions.  A JavaScript object is the list or finite map
    of its own properties; where the program enumerates an object
    ([for ... in]) the list is in enumeration order.  The objects [raw]
    and [args] are plain objects: reading a name ([k in raw], [raw[k]],
    [args[k]]) that is not an own property falls through to
    [Object.prototype], which [inherited] lists; deleting and enumerating
    see own properties only.  An assignment [obj[k] = v] writes an own
    property, which is what JavaScript does for every name but
    [__proto__]: a schema with the key [__proto__] is outside the model.
    A user coercion and the splitter are functions of their arguments.
    [parse] writes to the schema object it is given, so the model returns,
    next to what the call returns or throws, the schema as the call leaves
    it. *)

From Stdlib Require Import String Ascii List Bool ZArith Lia.
From stdpp Require Import gmap strings list fin_maps.
Import ListNotations.

Local Open Scope string_scope.

#[local] Arguments append s1 s2 : simpl nomatch.

(** ** The tokenizer

    JavaScript strings are sequences of code units; the tokenizer only ever
    compares a unit with an ASCII character, so a unit is modelled by
    [ascii] and a string by [string]. *)

Module Tokenizer.

Inductive State := Skipping | Reading | Single | Double.

Definition squote : ascii := "039"%char.
Definition dquote : ascii := "034"%char.
Definition backslash : ascii := "092"%char.
Definition space : ascii := "032"%char.
Definition tab : ascii := "009"%char.

(** [c === " " || c === "\t"] *)
Definition is_blank (c : ascii) : bool :=
  Ascii.eqb c space || Ascii.eqb c tab.

(** [current += c] *)
Definition add (current : string) (c : ascii) : string :=
  current +:+ String c EmptyString.

(** The escape table of the [Double] state: [switch (cc)]. *)
Definition escape (cc : ascii) : ascii :=
  if Ascii.eqb cc "b" then "008"
  else if Ascii.eqb cc "f" then "012"
  else if Ascii.eqb cc "n" then "010"
  else if Ascii.eqb cc "r" then "013"
  else if Ascii.eqb cc "t" then "009"
  else if Ascii.eqb cc "v" then "011"
  else cc.

(** The [while (i < s.length)] loop: one character (two after a backslash
    inside double quotes) is consumed per iteration; [all.push(current)]
    appends at the end of [all].  At the end of the input [s[i++]] is
    [undefined], and [current += undefined] appends the text
    "undefined". *)
Fixpoint scan (state : State) (current : string) (all : list string)
    (s : string) : list string :=
  match s with
  | EmptyString => all ++ [current]
  | String c rest =>
      match state with
      | Skipping =>
          if is_blank c then scan Skipping current all rest
          else if Ascii.eqb c squote then
            scan Single EmptyString (all ++ [current]) rest
          else if Ascii.eqb c dquote then
            scan Double EmptyString (all ++ [current]) rest
          else scan Reading (String c EmptyString) (all ++ [current]) rest
      | Reading =>
          if is_blank c then scan Skipping current all rest
          else scan Reading (add current c) all rest
      | Single =>
          if Ascii.eqb c squote then scan Skipping current all rest
          else scan Single (add current c) all rest
      | Double =>
          if Ascii.eqb c dquote then scan Skipping current all rest
          else if Ascii.eqb c backslash then
            match rest with
            | EmptyString => all ++ [current +:+ "undefined"]
            | String cc rest' => scan Double (add current (escape cc)) all rest'
            end
          else scan Double (add current c) all rest
      end
  end.

(** [(s) => s.length > 0] *)
Definition nonempty (t : string) : bool := Nat.ltb 0 (String.length t).

Definition split (s : string) : list string :=
  List.filter nonempty (scan Skipping EmptyString [] s).

(** Notions used to state properties of [split]. *)

(** Every character is a space or a tab. *)
Fixpoint whitespace_only (s : string) : bool :=
  match s with
  | EmptyString => true
  | String c rest => is_blank c && whitespace_only rest
  end.

(** The character [c] occurs in [s]. *)
Fixpoint occurs (c : ascii) (s : string) : bool :=
  match s with
  | EmptyString => false
  | String x rest => Ascii.eqb x c || occurs c rest
  end.

(** [body] between two quote characters [q]. *)
Definition quoted (q : ascii) (body : string) : string :=
  String q (body +:+ String q EmptyString).

End Tokenizer.

(** ** The data model *)

Set Implicit Arguments.

Section Miniclap.

(** JavaScript numbers stay abstract: [parse] never computes with one, it
    only tests whether a value is truthy. *)
Variable num : Type.
Variable num_truthy : num -> bool.

(** The values that flow through [parse]: what the splitter binds to a
    name, what a coercion returns, and what ends up in the result. *)
#[warnings="-register-all"]
Inductive value :=
| VUndefined
| VNull
| VBool (b : bool)
| VNum (n : num)
| VStr (s : string)
| VArr (l : list value)
| VBuiltin (name : string).

(** [!!arg] *)
Definition truthy (v : value) : bool :=
  match v with
  | VUndefined | VNull => false
  | VBool b => b
  | VNum n => num_truthy n
  | VStr s => Tokenizer.nonempty s
  | VArr _ => true
  | VBuiltin _ => true
  end.

(** The names a plain object inherits from [Object.prototype]; reading
    one that is not an own property yields the inherited object,
    [VBuiltin name]. *)
Definition inherited (k : string) : bool :=
  existsb (String.eqb k)
    ["constructor"; "hasOwnProperty"; "isPrototypeOf"; "propertyIsEnumerable";
     "toLocaleString"; "toString"; "valueOf"; "__proto__";
     "__defineGetter__"; "__defineSetter__"; "__lookupGetter__"; "__lookupSetter__"].

#[global] Arguments inherited k : simpl never.

(** [class ParseError extends Error] *)
Record ParseError := { message : string }.

(** What a call ends with when it does not return: a [TypeError] of the
    runtime, or whatever a user coercion threw that is not a
    [ParseError]. *)
Inductive exn :=
| TypeError
| Uncaught (v : value).

Inductive result (A : Type) :=
| Ok (a : A)
| Throw (e : exn).
Arguments Ok {A} a.
Arguments Throw {A} e.

Definition bind {A B} (m : result A) (k : A -> result B) : result B :=
  match m with
  | Ok a => k a
  | Throw e => Throw e
  end.

(** A call of a user coercion [Parser<T>]: it returns, throws a
    [ParseError], or throws something else. *)
Inductive coerced :=
| Returns (v : value)
| ThrowsParseError (e : ParseError)
| ThrowsOther (v : value).

(** [type?: Parser<unknown> | "bool"] *)
Inductive ParamType :=
| TypeBool
| TypeParser (f : value -> coerced).

(** [long?: string | string[]] *)
Inductive Long :=
| LongString (s : string)
| LongArray (l : list string).

(** [Param]; [optional] is read for its truthiness only. *)
Record Param := {
  long : option Long;
  short : option string;
  type : option ParamType;
  optional : bool;
  default : option string
}.

(** [Params]: the own properties of the schema object, in the order in
    which [for (const key in params)] visits them. *)
Definition Params := list (string * Param).

(** [ParamsHelp] *)
Record ParamsHelp := { help_params : list string; help_options : list string }.

(** [ArgErrors] *)
Record ArgErrors := {
  invalid : gmap string ParseError;
  missing : list string;
  unexpected : list value
}.

(** What the splitter returns: the positional list under the reserved key
    [_], and the other own properties in enumeration order. *)
Record ParsedArgs := { pa_positional : list value; pa_named : list (string * value) }.

(** The splitter itself is a dependency of the program:
    [minimist(s, { string: options, boolean: flags })]. *)
Variable minimist : list string -> list string -> list string -> ParsedArgs.

(** The object [raw] while [parse] edits it.  [delete raw["_"]] removes
    the positional list, after which [raw._] is [undefined]. *)
Record Raw := { underscore : option (list value); named : list (string * value) }.

Definition reserved : string := "_".

(** [k in raw] *)
Definition raw_in (k : string) (r : Raw) : bool :=
  if String.eqb k reserved then
    match underscore r with Some _ => true | None => false end
  else existsb (fun kv => String.eqb (fst kv) k) (named r) || inherited k.

(** [raw[k]] *)
Definition raw_get (k : string) (r : Raw) : value :=
  if String.eqb k reserved then
    match underscore r with Some l => VArr l | None => VUndefined end
  else
    match List.find (fun kv => String.eqb (fst kv) k) (named r) with
    | Some kv => snd kv
    | None => if inherited k then VBuiltin k else VUndefined
    end.

(** [delete raw[k]] *)
Definition raw_delete (k : string) (r : Raw) : Raw :=
  if String.eqb k reserved then {| underscore := None; named := named r |}
  else {| underscore := underscore r;
          named := List.filter (fun kv => negb (String.eqb (fst kv) k)) (named r) |}.

(** Truthiness of the descriptor fields. *)
Definition str_truthy (s : string) : bool := negb (String.eqb s "").

Definition opt_truthy (o : option string) : bool :=
  match o with Some s => str_truthy s | None => false end.

Definition long_truthy (o : option Long) : bool :=
  match o with
  | None => false
  | Some (LongString s) => str_truthy s
  | Some (LongArray _) => true
  end.

(** [param.type === "bool"] *)
Definition is_bool (p : Param) : bool :=
  match type p with Some TypeBool => true | _ => false end.

(** What [for (const p of param.long)] visits: the elements of an
    array, the characters of a string. *)
Definition long_items (o : option Long) : list string :=
  match o with
  | None => []
  | Some (LongString s) => map (fun c => String c EmptyString) (list_ascii_of_string s)
  | Some (LongArray l) => l
  end.

(** ** The first loop: declared names, help, and the normalised schema *)

Record Decl := {
  options : list string;
  flags : list string;
  helpParams : list string;
  helpOptions : list string
}.

(** [if (param.long && typeof param.long === "string") param.long = [param.long]] *)
Definition normalise (p : Param) : Param :=
  match long p with
  | Some (LongString s) =>
      if str_truthy s then
        {| long := Some (LongArray [s]); short := short p; type := type p;
           optional := optional p; default := default p |}
      else p
  | _ => p
  end.

(** The names one parameter pushes onto [options] or [flags]. *)
Definition names (p : Param) : list string :=
  (if opt_truthy (short p) then match short p with Some s => [s] | None => [] end else [])
  ++ (if long_truthy (long p) then long_items (long p) else []).

(** The pieces of one help line, before [help.join(" ")]. *)
Definition help_pieces (key : string) (p : Param) : list string :=
  (if opt_truthy (short p) then match short p with Some s => ["-" +:+ s] | None => [] end else [])
  ++ (if long_truthy (long p) then map (fun a => "--" +:+ a) (long_items (long p)) else [])
  ++ (if is_bool p then []
      else if opt_truthy (default p) then
        match default p with Some d => ["<" +:+ key +:+ "=" +:+ d +:+ ">"] | None => [] end
      else ["<" +:+ key +:+ ">"]).

(** One iteration of the first loop, on the accumulators and on the
    descriptor, which it may rewrite. *)
Definition declare (key : string) (param : Param) (d : Decl) : Decl * Param :=
  let param' := normalise param in
  let line := String.concat " " (help_pieces key param') in
  let aliased := opt_truthy (short param') || long_truthy (long param') in
  ({| options := if is_bool param' then options d else options d ++ names param';
      flags := if is_bool param' then flags d ++ names param' else flags d;
      helpParams := if aliased then helpParams d else helpParams d ++ [line];
      helpOptions := if aliased then helpOptions d ++ [line] else helpOptions d |},
   param').

Fixpoint declare_all (params : Params) (d : Decl) : Decl * Params :=
  match params with
  | [] => (d, [])
  | (key, param) :: rest =>
      let '(d1, param') := declare key param d in
      let '(d2, rest') := declare_all rest d1 in
      (d2, (key, param') :: rest')
  end.

(** ** The second loop: resolving one parameter *)

Abbreviation ArgsObj := (gmap string value).

(** The objects the second loop mutates. *)
Record Env := { args : ArgsObj; errors : ArgErrors; raw : Raw }.

(** [args[key] = val] *)
Definition set_arg (key : string) (val : value) (st : Env) : Env :=
  {| args := <[key := val]> (args st); errors := errors st; raw := raw st |}.

(** [errors.invalid[key] = err] *)
Definition set_invalid (key : string) (err : ParseError) (st : Env) : Env :=
  {| args := args st;
     errors := {| invalid := <[key := err]> (invalid (errors st));
                  missing := missing (errors st);
                  unexpected := unexpected (errors st) |};
     raw := raw st |}.

(** [errors.missing.push(key)] *)
Definition push_missing (key : string) (st : Env) : Env :=
  {| args := args st;
     errors := {| invalid := invalid (errors st);
                  missing := missing (errors st) ++ [key];
                  unexpected := unexpected (errors st) |};
     raw := raw st |}.

Definition set_raw (r : Raw) (st : Env) : Env :=
  {| args := args st; errors := errors st; raw := r |}.

(** The closure [parser]: [[val, null]], [[null, err]], or a throw that
    leaves [parse]. *)
Definition parser (param : Param) (arg : value) : result (value + ParseError) :=
  match type param with
  | Some TypeBool => Ok (inl (VBool (truthy arg)))
  | Some (TypeParser f) =>
      match f arg with
      | Returns v => Ok (inl v)
      | ThrowsParseError e => Ok (inr e)
      | ThrowsOther x => Throw (Uncaught x)
      end
  | None => Ok (inl arg)
  end.

(** [if (err) errors.invalid[key] = err; else args[key] = val] *)
Definition store (key : string) (r : value + ParseError) (st : Env) : Env :=
  match r with
  | inr err => set_invalid key err st
  | inl val => set_arg key val st
  end.

(** [args[key]] as a read: the own property, or else what the object
    inherits under that name; [None] when there is neither. *)
Definition field (key : string) (st : Env) : option value :=
  match args st !! key with
  | Some v => Some v
  | None => if inherited key then Some (VBuiltin key) else None
  end.

(** [args[key] ||= val] *)
Definition or_assign (key : string) (val : value) (st : Env) : Env :=
  match field key st with
  | Some old => if truthy old then st else set_arg key val st
  | None => set_arg key val st
  end.

(** [if (param.default) ...] *)
Definition from_default (key : string) (param : Param) (st : Env) : result Env :=
  match default param with
  | Some d =>
      if str_truthy d then
        bind (parser param (VStr d)) (fun r => Ok (store key r st))
      else Ok st
  | None => Ok st
  end.

(** [if (param.short && param.short in raw) ...] *)
Definition from_short (key : string) (param : Param) (st : Env) : result Env :=
  match short param with
  | Some s =>
      if str_truthy s && raw_in s (raw st) then
        bind (parser param (raw_get s (raw st)))
             (fun r => Ok (store key r (set_raw (raw_delete s (raw st)) st)))
      else Ok st
  | None => Ok st
  end.

(** The body of [for (const p of param.long)]. *)
Definition from_alias (key : string) (param : Param) (p : string) (st : Env) : result Env :=
  if raw_in p (raw st) then
    bind (parser param (raw_get p (raw st)))
         (fun r =>
            let st1 := set_raw (raw_delete p (raw st)) st in
            Ok match r with
               | inr err => set_invalid key err st1
               | inl val =>
                   if is_bool param then or_assign key val st1
                   else set_arg key val st1
               end)
  else Ok st.

Fixpoint from_aliases (key : string) (param : Param) (ps : list string) (st : Env)
    : result Env :=
  match ps with
  | [] => Ok st
  | p :: rest => bind (from_alias key param p st) (from_aliases key param rest)
  end.

(** [if (param.long) for (const p of param.long) ...] *)
Definition from_long (key : string) (param : Param) (st : Env) : result Env :=
  if long_truthy (long param) then from_aliases key param (long_items (long param)) st
  else Ok st.

(** [if (!param.short && !param.long && raw._.length > 0) ...]; reading
    [length] of an undefined [raw._] is a [TypeError]. *)
Definition from_positional (key : string) (param : Param) (st : Env) : result Env :=
  if negb (opt_truthy (short param)) && negb (long_truthy (long param)) then
    match underscore (raw st) with
    | None => Throw TypeError
    | Some [] => Ok st
    | Some (tok :: rest) =>
        bind (parser param tok)
             (fun r => Ok (store key r
                (set_raw {| underscore := Some rest; named := named (raw st) |} st)))
    end
  else Ok st.

(** [if (args[key] === undefined) ...] *)
Definition or_missing (key : string) (param : Param) (st : Env) : Env :=
  match field key st with
  | None | Some VUndefined =>
      if is_bool param then set_arg key (VBool false) st
      else if optional param then st
      else push_missing key st
  | Some _ => st
  end.

(** One iteration of the second loop. *)
Definition resolve (key : string) (param : Param) (st : Env) : result Env :=
  bind (from_default key param st) (fun st1 =>
  bind (from_short key param st1) (fun st2 =>
  bind (from_long key param st2) (fun st3 =>
  bind (from_positional key param st3) (fun st4 =>
  Ok (or_missing key param st4))))).

Fixpoint resolve_all (params : Params) (st : Env) : result Env :=
  match params with
  | [] => Ok st
  | (key, param) :: rest => bind (resolve key param st) (resolve_all rest)
  end.

(** ** Leftovers and the outcome *)

(** [arg === ""] *)
Definition is_empty_string (v : value) : bool :=
  match v with VStr s => String.eqb s "" | _ => false end.

(** The two [errors.unexpected.push] loops; iterating an undefined
    [raw._] is a [TypeError]. *)
Definition leftovers (st : Env) : result Env :=
  match underscore (raw st) with
  | None => Throw TypeError
  | Some rest =>
      Ok {| args := args st;
            errors := {| invalid := invalid (errors st);
                         missing := missing (errors st);
                         unexpected :=
                           unexpected (errors st)
                           ++ List.filter (fun arg => negb (is_empty_string arg)) rest
                           ++ map VStr (List.filter (fun opt => negb (String.eqb opt reserved))
                                          (map fst (named (raw st)))) |};
            raw := raw st |}
  end.

(** [ParseReturn] *)
Definition ParseReturn : Type := option ArgsObj * option ArgErrors * ParamsHelp.

(** The final [if]. *)
Definition conclude (help : ParamsHelp) (st : Env) : ParseReturn :=
  if Nat.ltb 0 (size (invalid (errors st)))
     || Nat.ltb 0 (length (missing (errors st)))
     || Nat.ltb 0 (length (unexpected (errors st)))
  then (None, Some (errors st), help)
  else (Some (args st), None, help).

(** [s: string | string[]] *)
Inductive Input :=
| InString (s : string)
| InArray (l : list string).

Definition tokens (s : Input) : list string :=
  match s with
  | InString s => Tokenizer.split s
  | InArray l => l
  end.

Definition start (pa : ParsedArgs) : Env :=
  {| args := ∅;
     errors := {| invalid := ∅; missing := []; unexpected := [] |};
     raw := {| underscore := Some (pa_positional pa); named := pa_named pa |} |}.

(** [parse]: what the call returns or throws, and the schema object as
    the call leaves it. *)
Definition parse (s : Input) (params : Params) : result ParseReturn * Params :=
  let '(d, params') :=
    declare_all params
      {| options := []; flags := []; helpParams := []; helpOptions := [] |} in
  let help := {| help_params := helpParams d; help_options := helpOptions d |} in
  let raw0 := minimist (tokens s) (options d) (flags d) in
  (bind (resolve_all params' (start raw0)) (fun st =>
   bind (leftovers st) (fun st' => Ok (conclude help st'))),
   params').

(** ** Notions used to state properties of [parse] *)

(** The test of a pure positional: [!param.short && !param.long]. *)
Definition positional (p : Param) : bool :=
  negb (opt_truthy (short p)) && negb (long_truthy (long p)).

(** The sources the second loop consults for one parameter, one by one. *)
Inductive Source :=
| FromDefault
| FromShort
| FromAlias (p : string)
| FromPositional.

Definition consult (key : string) (param : Param) (src : Source) (st : Env)
    : result Env :=
  match src with
  | FromDefault => from_default key param st
  | FromShort => from_short key param st
  | FromAlias p => from_alias key param p st
  | FromPositional => from_positional key param st
  end.

Definition sources (param : Param) : list Source :=
  [FromDefault; FromShort]
  ++ (if long_truthy (long param) then map FromAlias (long_items (long param)) else [])
  ++ [FromPositional].

Fixpoint consult_all (key : string) (param : Param) (srcs : list Source) (st : Env)
    : result Env :=
  match srcs with
  | [] => Ok st
  | src :: rest => bind (consult key param src st) (consult_all key param rest)
  end.

(** The long aliases the second loop looks up. *)
Definition long_names (param : Param) : list string :=
  if long_truthy (long param) then long_items (long param) else [].

(** The aliases of [ps] that are bound in [r], and their raw values. *)
Definition bound (ps : list string) (r : Raw) : list string :=
  List.filter (fun a => raw_in a r) ps.

Definition hits (ps : list string) (r : Raw) : list value :=
  map (fun a => raw_get a r) (bound ps r).

(** Following the words of the spec: the raw values offered to one
    parameter, in the order default, bound short alias, bound long
    aliases in declaration order, next positional token. *)
Definition offered (param : Param) (r : Raw) : list value :=
  match default param with
  | Some d => if str_truthy d then [VStr d] else []
  | None => []
  end
  ++ match short param with
     | Some s => if str_truthy s && raw_in s r then [raw_get s r] else []
     | None => []
     end
  ++ hits (long_names param) r
  ++ (if positional param then
        match underscore r with
        | Some (tok :: _) => [tok]
        | _ => []
        end
      else []).

(** Following the words of the spec: layering, where each value that
    coerces replaces what the earlier sources left. *)
Fixpoint layered (param : Param) (vs : list value) (seed : option value)
    : option value :=
  match vs with
  | [] => seed
  | v :: rest =>
      layered param rest
        match parser param v with
        | Ok (inl x) => Some x
        | _ => seed
        end
  end.


(** A descriptor with no field set. *)
Definition plain : Param :=
  {| long := None; short := None; type := None; optional := false; default := None |}.

(** A coercion that never throws anything but a [ParseError]. *)
Definition tame (param : Param) : Prop :=
  forall f arg x, type param = Some (TypeParser f) -> f arg <> ThrowsOther x.

(** The same descriptor with no [default] declared. *)
Definition without_default (p : Param) : Param :=
  {| long := long p; short := short p; type := type p;
     optional := optional p; default := None |}.

(** What resolution never undoes: [unexpected] is left alone, and a name
    recorded under [invalid] stays recorded. *)
Definition kept (st st' : Env) : Prop :=
  unexpected (errors st') = unexpected (errors st)
  /\ forall k, is_Some (invalid (errors st) !! k) -> is_Some (invalid (errors st') !! k).

(** [p'] is [p], or [p] with its empty-string [default] left out. *)
Definition drops_empty_default (p p' : Param) : Prop :=
  p' = p \/ (default p = Some "" /\ p' = without_default p).

(** The names a parameter answers to once [long] is normalised. *)
Definition aliases (p : Param) : list string := names (normalise p).

(** A schema that gives [parse] no reason to throw: no coercion throws
    anything but a [ParseError], and no alias is the reserved key. *)
Definition well_behaved (params : Params) : Prop :=
  Forall (fun kp => tame (snd kp) /\ ~ In reserved (aliases (snd kp))) params.

(** The state in which the second loop ends, and the help descriptor,
    as [parse] computes them. *)
Definition begin (s : Input) (params : Params) : Env :=
  let dp := declare_all params
              {| options := []; flags := []; helpParams := []; helpOptions := [] |} in
  start (minimist (tokens s) (options (fst dp)) (flags (fst dp))).

Definition resolved (s : Input) (params : Params) : result Env :=
  let dp := declare_all params
              {| options := []; flags := []; helpParams := []; helpOptions := [] |} in
  resolve_all (snd dp) (begin s params).

(** What the two final loops push onto [unexpected] when the positional
    list [rest] and the named entries [entries] remain. *)
Definition unclaimed (rest : list value) (entries : list (string * value)) : list value :=
  List.filter (fun arg => negb (is_empty_string arg)) rest
  ++ map VStr (List.filter (fun opt => negb (String.eqb opt reserved)) (map fst entries)).

Definition help_of (params : Params) : ParamsHelp :=
  let dp := declare_all params
              {| options := []; flags := []; helpParams := []; helpOptions := [] |} in
  {| help_params := helpParams (fst dp); help_options := helpOptions (fst dp) |}.

(** ** A reference splitter *)

(** Binding a name that is already bound: a boolean is replaced, anything
    else is collected into an array. *)
Definition bind_name (bools : list string) (k : string) (v : value)
    (l : list (string * value)) : list (string * value) :=
  if existsb (String.eqb k) (map fst l) then
    map (fun kv =>
           if String.eqb (fst kv) k then
             (k, if existsb (String.eqb k) bools then v
                 else match snd kv with
                      | VBool _ => v
                      | VArr xs => VArr (xs ++ [v])
                      | old => VArr [old; v]
                      end)
           else kv) l
  else l ++ [(k, v)].

Definition put (bools : list string) (k : string) (v : value) (pa : ParsedArgs)
    : ParsedArgs :=
  {| pa_positional := pa_positional pa; pa_named := bind_name bools k v (pa_named pa) |}.

Definition put_positional (t : string) (pa : ParsedArgs) : ParsedArgs :=
  {| pa_positional := pa_positional pa ++ [VStr t]; pa_named := pa_named pa |}.

(** A name given without a value: the empty string for a declared option,
    [true] otherwise. *)
Definition bare (strings : list string) (k : string) : value :=
  if existsb (String.eqb k) strings then VStr "" else VBool true.

Fixpoint splitter_loop (strings bools : list string) (toks : list string)
    (pa : ParsedArgs) : ParsedArgs :=
  match toks with
  | [] => pa
  | t :: rest =>
      let n := String.length t in
      if String.eqb t "--" then fold_left (fun a x => put_positional x a) rest pa
      else if String.prefix "--" t then
        let body := substring 2 (n - 2) t in
        match index 0 "=" body with
        | Some i =>
            let k := substring 0 i body in
            let v := substring (i + 1) (n - 2 - i - 1) body in
            splitter_loop strings bools rest
              (put bools k (if existsb (String.eqb k) bools
                            then VBool (negb (String.eqb v "false")) else VStr v) pa)
        | None =>
            match rest with
            | next :: rest' =>
                if negb (String.prefix "-" next) && negb (existsb (String.eqb body) bools)
                then splitter_loop strings bools rest' (put bools body (VStr next) pa)
                else splitter_loop strings bools rest (put bools body (bare strings body) pa)
            | [] => put bools body (bare strings body) pa
            end
        end
      else if String.prefix "-" t && Nat.eqb n 2 then
        let k := substring 1 1 t in
        match rest with
        | next :: rest' =>
            if negb (String.prefix "-" next) && negb (existsb (String.eqb k) bools)
            then splitter_loop strings bools rest' (put bools k (VStr next) pa)
            else splitter_loop strings bools rest (put bools k (bare strings k) pa)
        | [] => put bools k (bare strings k) pa
        end
      else if String.prefix "-" t && Nat.ltb 2 n then
        splitter_loop strings bools rest
          (fold_left (fun a c => put bools (String c EmptyString) (bare strings (String c EmptyString)) a)
             (list_ascii_of_string (substring 1 (n - 1) t)) pa)
      else splitter_loop strings bools rest (put_positional t pa)
  end.

(** Modelled from the spec: the raw splitter behind [minimist(s, {string,
    boolean})] is an external package whose code is not in the repository.
    This instance follows the contract the spec gives for it: the forms
    [--name value], [--name=value], [-x value], clustered switches and
    bare tokens, which become the positional list under the reserved
    key.  As the package does, every declared switch starts out bound to
    [false], [--name=false] binds a switch to [false], and the token [--]
    ends option processing; tokens that look like numbers are kept as
    strings. *)
Definition splitter (toks strings bools : list string) : ParsedArgs :=
  splitter_loop strings bools toks
    {| pa_positional := []; pa_named := map (fun b => (b, VBool false)) bools |}.

End Miniclap.

Arguments VUndefined {num}.
Arguments VNull {num}.
Arguments VBool {num} b.
Arguments VNum {num} n.
Arguments VStr {num} s.
Arguments VArr {num} l.
Arguments VBuiltin {num} name.
Arguments Ok {num A} a.
Arguments Throw {num A} e.
Arguments TypeError {num}.
Arguments Uncaught {num} v.
Arguments Returns {num} v.
Arguments ThrowsParseError {num} e.
Arguments ThrowsOther {num} v.
Arguments TypeBool {num}.
Arguments TypeParser {num} f.
Arguments splitter {num} toks strings bools.
Arguments plain {num}.

(** ** A concrete instance: integers for numbers *)

Definition z_truthy (z : Z) : bool := negb (Z.eqb z 0).

(** A sample user coercion: decimal numerals, anything else is a
    [ParseError]. *)
Fixpoint decimal (s : string) (acc : Z) : option Z :=
  match s with
  | EmptyString => Some acc
  | String c rest =>
      let d := nat_of_ascii c in
      if Nat.leb 48 d && Nat.leb d 57
      then decimal rest (10 * acc + Z.of_nat (d - 48))
      else None
  end.

Definition numeral (v : value Z) : coerced Z :=
  match v with
  | VNum z => Returns (VNum z)
  | VStr (String c rest) =>
      match decimal (String c rest) 0 with
      | Some z => Returns (VNum z)
      | None => ThrowsParseError {| message := "not a numeral" |}
      end
  | _ => ThrowsParseError {| message := "not a numeral" |}
  end.

(** Sample schemas. *)
Definition fruit_vegetable : Params Z := [("fruit", plain); ("vegetable", plain)].

Definition fruit_option : Param Z :=
  {| long := Some (LongString "fruit"); short := None; type := None;
     optional := false; default := None |}.

Definition fruit_long : Params Z := [("fruit", fruit_option)].



Definition count_defaulted : Params Z :=
  [("count", {| long := Some (LongString "count"); short := None;
                type := Some (TypeParser numeral); optional := false;
                default := Some "many" |})].

Definition verbose_only : Params Z :=
  [("verbose", {| long := None; short := None; type := Some TypeBool;
                  optional := false; default := None |})].

Definition empty_default : Param Z :=
  {| long := Some (LongString "fruit"); short := None; type := None;
     optional := false; default := Some "" |}.

Definition alias_flag : Param Z :=
  {| long := Some (LongArray ["verbose"; "debug"; "log"]); short := None;
     type := Some TypeBool; optional := false; default := None |}.

Definition rotate : Param Z :=
  {| long := Some (LongArray ["rotate"; "rot"]); short := Some "r";
     type := Some (TypeParser numeral); optional := false; default := Some "0" |}.


(** The example of two adjacent quoted segments: a single-quoted [a]
    followed at once by a double-quoted [b]. *)
Definition adjacent_example : string :=
  Tokenizer.quoted Tokenizer.squote "a" +:+ Tokenizer.quoted Tokenizer.dquote "b".

(** * Further notions *)

(** ** Writing input for the tokenizer *)

Module Quoting.

Import Tokenizer.

(** [s] with a backslash before every double quote and every backslash. *)
Fixpoint escaped (s : string) : string :=
  match s with
  | EmptyString => EmptyString
  | String c rest =>
      if Ascii.eqb c dquote || Ascii.eqb c backslash
      then String backslash (String c (escaped rest))
      else String c (escaped rest)
  end.

(** One token written between double quotes. *)
Definition protect (t : string) : string := quoted dquote (escaped t).

(** A command line for the tokens [ts]. *)
Definition command (ts : list string) : string :=
  String.concat " " (map protect ts).

Fixpoint blank_free (s : string) : bool :=
  match s with
  | EmptyString => true
  | String c rest => negb (is_blank c) && blank_free rest
  end.

(** A word that needs no quoting: not empty, no space or tab, and no
    quote character in front. *)
Definition plain_word (w : string) : bool :=
  match w with
  | EmptyString => false
  | String c _ =>
      negb (Ascii.eqb c squote) && negb (Ascii.eqb c dquote) && blank_free w
  end.

(** A quoted segment, by the text written between its two quote
    characters. *)
Inductive segment :=
| SingleQuoted (text : string)
| DoubleQuoted (text : string).

Definition written (seg : segment) : string :=
  match seg with
  | SingleQuoted u => quoted squote u
  | DoubleQuoted v => quoted dquote v
  end.

(** What the text between double quotes stands for: a backslash and the
    character after it stand for one character of the escape table.
    [None] when the text does not reach the closing quote: a double quote
    of its own, or a backslash at its very end. *)
Fixpoint decode (v : string) : option string :=
  match v with
  | EmptyString => Some EmptyString
  | String c rest =>
      if Ascii.eqb c dquote then None
      else if Ascii.eqb c backslash then
        match rest with
        | EmptyString => None
        | String cc rest' => option_map (String (escape cc)) (decode rest')
        end
      else option_map (String c) (decode rest)
  end.

(** The body of a segment that is closed by its second quote character. *)
Definition body (seg : segment) : option string :=
  match seg with
  | SingleQuoted u => if occurs squote u then None else Some u
  | DoubleQuoted v => decode v
  end.

(** Segments written one after another with nothing in between. *)
Fixpoint juxtaposed (segs : list segment) : string :=
  match segs with
  | [] => EmptyString
  | seg :: rest => written seg +:+ juxtaposed rest
  end.

End Quoting.

(** ** Notions for the schema as a whole *)

Section FurtherNotions.

Context {num : Type}.

(** The call of the splitter that [parse] makes. *)
Definition split_args
    (minimist : list string -> list string -> list string -> ParsedArgs num)
    (s : Input) (params : Params num) : ParsedArgs num :=
  let dp := declare_all params
              {| options := []; flags := []; helpParams := []; helpOptions := [] |} in
  minimist (tokens s) (options (fst dp)) (flags (fst dp)).

(** The help line of one parameter. *)
Definition help_line (kp : string * Param num) : string :=
  String.concat " " (help_pieces (fst kp) (normalise (snd kp))).

Definition is_positional (kp : string * Param num) : bool := positional (snd kp).

Definition is_flag (kp : string * Param num) : bool := is_bool (snd kp).

(** Neither a flag nor optional. *)
Definition required (kp : string * Param num) : bool :=
  negb (is_bool (snd kp)) && negb (optional (snd kp)).

(** Every alias the schema declares. *)
Definition declared (params : Params num) : list string :=
  flat_map (fun kp => aliases (snd kp)) params.

(** The short alias the second loop looks up. *)
Definition short_names (p : Param num) : list string :=
  if opt_truthy (short p)
  then match short p with Some a => [a] | None => [] end
  else [].

(** The raw object without the names [ns]. *)
Definition strike (ns : list string) (r : Raw num) : Raw num :=
  {| underscore := underscore r;
     named := List.filter (fun kv => negb (existsb (String.eqb (fst kv)) ns)) (named r) |}.

(** The raw object after [raw._.shift()]. *)
Definition shift (r : Raw num) : Raw num :=
  {| underscore := option_map (@tail (value num)) (underscore r); named := named r |}.

(** A field that holds something other than [undefined]. *)
Definition defined (o : option (value num)) : Prop :=
  exists v, o = Some v /\ v <> VUndefined.

(** The source looks the reserved name up as an alias. *)
Definition strikes_reserved (param : Param num) (src : Source) : Prop :=
  src = FromAlias reserved \/ (src = FromShort /\ short param = Some reserved).

(** A field that is unset or holds a boolean. *)
Definition flaglike (o : option (value num)) : Prop :=
  o = None \/ exists b, o = Some (VBool b).

End FurtherNotions.

(** ** More sample schemas *)

Definition verbose_short : Param Z :=
  {| long := None; short := Some "v"; type := Some TypeBool;
     optional := false; default := None |}.

Definition width : Param Z :=
  {| long := Some (LongString "width"); short := Some "w";
     type := Some (TypeParser numeral); optional := false; default := None |}.



(** A required parameter of such a name, with the empty string as
    default. *)
Definition option_c : Param Z :=
  {| long := Some (LongString "c"); short := None; type := None;
     optional := false; default := Some "" |}.

Definition constructor_option : Params Z := [("constructor", option_c)].

Definition convert_schema : Params Z :=
  [("in", plain); ("out", plain); ("verbose", verbose_short); ("width", width);
   ("rotate", rotate)].

(** A coercion that throws its argument, which is not a [ParseError]. *)
Definition crash (v : value Z) : coerced Z := ThrowsOther v.

Definition crash_schema : Params Z :=
  [("x", {| long := None; short := None; type := Some (TypeParser crash);
            optional := false; default := None |})].

Definition reserved_schema : Params Z :=
  [("x", {| long := None; short := Some "_"; type := None;
            optional := false; default := None |});
   ("y", plain)].

Definition optional_fruit : Param Z :=
  {| long := Some (LongArray ["fruit"]); short := None; type := None;
     optional := true; default := None |}.

(** * Properties *)

Unset Implicit Arguments.

(** ** The tokenizer *)

Section TokenizerFacts.
Import Tokenizer.

Lemma scan_blank (s : string) (current : string) (all : list string) :
  whitespace_only s = true -> scan Skipping current all s = (all ++ [current])%list.
Proof.
  induction s as [|c rest IH]; simpl; [reflexivity|].
  intros [Hc Hrest]%andb_prop. rewrite Hc. now apply IH.
Qed.

Lemma add_append (current : string) (c : ascii) (u : string) :
  add current c +:+ u = current +:+ String c u.
Proof.
  unfold add. induction current as [|x current IH]; simpl; [reflexivity|].
  now rewrite IH.
Qed.

Lemma append_empty_r (u : string) : u +:+ EmptyString = u.
Proof. induction u as [|x u IH]; simpl; [reflexivity|now rewrite IH]. Qed.

(** Inside single quotes everything up to the closing quote is kept, and
    the closing quote returns to [Skipping]. *)
Lemma scan_single (u rest current : string) (all : list string) :
  occurs squote u = false ->
  scan Single current all (u +:+ String squote rest)
  = scan Skipping (current +:+ u) all rest.
Proof.
  revert current. induction u as [|x u IH]; intros current; simpl.
  - intros _. now rewrite append_empty_r.
  - intros [Hx Hu]%orb_false_elim. rewrite Hx.
    rewrite IH by assumption. now rewrite add_append.
Qed.

Lemma scan_double (v rest current : string) (all : list string) :
  occurs dquote v = false -> occurs backslash v = false ->
  scan Double current all (v +:+ String dquote rest)
  = scan Skipping (current +:+ v) all rest.
Proof.
  revert current. induction v as [|x v IH]; intros current; simpl.
  - intros _ _. now rewrite append_empty_r.
  - intros [Hx Hv]%orb_false_elim [Hx' Hv']%orb_false_elim. rewrite Hx, Hx'.
    rewrite IH by assumption. now rewrite add_append.
Qed.

Lemma append_assoc (a b c : string) : (a +:+ b) +:+ c = a +:+ (b +:+ c).
Proof. induction a as [|x a IH]; simpl; [reflexivity|now rewrite IH]. Qed.

Lemma filter_nonempty_no_empty (l : list string) :
  ~ In EmptyString (List.filter nonempty l).
Proof. intros [_ H]%filter_In. discriminate H. Qed.

End TokenizerFacts.

Example split_apple_carrot :
  Tokenizer.split "apple carrot" = ["apple"; "carrot"].
Proof. reflexivity. Qed.

Example split_single_quoted :
  Tokenizer.split "'a b' c" = ["a b"; "c"].
Proof. reflexivity. Qed.

Example split_escape :
  Tokenizer.split (Tokenizer.quoted Tokenizer.dquote ("x" +:+ String Tokenizer.backslash "ny"))
  = ["x" +:+ String "010"%char "y"].
Proof. reflexivity. Qed.

Example split_unterminated :
  Tokenizer.split "a 'b c" = ["a"; "b c"].
Proof. reflexivity. Qed.

(** C7: the tokenizer never emits an empty-string token, and an input made
    of spaces and tabs only yields the empty sequence. *)
Theorem split_never_emits_empty (s : string) :
  ~ In EmptyString (Tokenizer.split s)
  /\ (Tokenizer.whitespace_only s = true -> Tokenizer.split s = []).
Proof.
  split.
  - apply filter_nonempty_no_empty.
  - intros Hs. unfold Tokenizer.split. now rewrite scan_blank.
Qed.

Lemma split_never_emits_empty_witness :
  Tokenizer.whitespace_only (String Tokenizer.tab "  ") = true
  /\ Tokenizer.split (String Tokenizer.tab "  ") = [].
Proof.
  split; [reflexivity|].
  apply (proj2 (split_never_emits_empty (String Tokenizer.tab "  "))). reflexivity.
Defined.

(** C2, as stated, fails: the two adjacent quoted segments of the example
    come out as two tokens, not as the single token [ab]. *)
Lemma adjacent_quotes_split_apart :
  Tokenizer.split adjacent_example = ["a"; "b"]
  /\ Tokenizer.split adjacent_example <> ["ab"].
Proof. split; [reflexivity|discriminate]. Qed.

Section AdjacentSegments.

Import Tokenizer Quoting.

Local Open Scope list_scope.

(** Inside double quotes the text up to the closing quote is decoded, and
    the closing quote returns to [Skipping]. *)
Lemma scan_decode (n : nat) (v b rest current : string) (all : list string) :
  String.length v <= n -> decode v = Some b ->
  scan Double current all (v +:+ String dquote rest)
  = scan Skipping (current +:+ b) all rest.
Proof.
  revert v b current. induction n as [|n IH]; intros v b current Hn.
  - destruct v; [|cbn in Hn; lia]. intros [= <-]. cbn.
    now rewrite append_empty_r.
  - destruct v as [|c v]; [intros [= <-]; cbn; now rewrite append_empty_r|].
    cbn [decode]. change (String c v +:+ String dquote rest)
      with (String c (v +:+ String dquote rest)).
    cbn [scan]. destruct (Ascii.eqb c dquote); [discriminate|].
    destruct (Ascii.eqb c backslash).
    + destruct v as [|cc v]; [discriminate|].
      change (String cc v +:+ String dquote rest)
        with (String cc (v +:+ String dquote rest)).
      destruct (decode v) as [b'|] eqn:Eb; [|discriminate]. intros [= <-].
      rewrite (IH v b') by (cbn in Hn; auto; lia). now rewrite add_append.
    + destruct (decode v) as [b'|] eqn:Eb; [|discriminate]. intros [= <-].
      rewrite (IH v b') by (cbn in Hn; auto; lia). now rewrite add_append.
Qed.

(** From [Skipping], a quoted segment pushes what was being read and
    leaves its own body as the token being read, back in [Skipping]. *)
Lemma scan_segment (seg : segment) (b rest current : string) (all : list string) :
  body seg = Some b ->
  scan Skipping current all (written seg +:+ rest)
  = scan Skipping b (all ++ [current]) rest.
Proof.
  destruct seg as [u|v]; cbn [body written]; unfold quoted.
  - destruct (occurs squote u) eqn:Hu; [discriminate|]. intros [= <-].
    change (String squote (u +:+ String squote "") +:+ rest)
      with (String squote ((u +:+ String squote "") +:+ rest)).
    rewrite append_assoc.
    change (scan Skipping current all (String squote (u +:+ (String squote "" +:+ rest))))
      with (scan Single "" (all ++ [current]) (u +:+ String squote rest)).
    now rewrite scan_single.
  - intros Hb.
    change (String dquote (v +:+ String dquote "") +:+ rest)
      with (String dquote ((v +:+ String dquote "") +:+ rest)).
    rewrite append_assoc.
    change (scan Skipping current all (String dquote (v +:+ (String dquote "" +:+ rest))))
      with (scan Double "" (all ++ [current]) (v +:+ String dquote rest)).
    now rewrite (scan_decode (String.length v) v b).
Qed.

Lemma scan_juxtaposed (segs : list segment) (bodies : list string)
    (current : string) (all : list string) :
  Forall2 (fun seg b => body seg = Some b) segs bodies ->
  scan Skipping current all (juxtaposed segs) = all ++ current :: bodies.
Proof.
  intros H. revert current all.
  induction H as [|seg b segs bodies Hb _ IH]; intros current all; cbn [juxtaposed].
  - reflexivity.
  - rewrite (scan_segment seg b) by assumption. rewrite IH.
    now rewrite <- app_assoc.
Qed.

(** What has been pushed stays in front of what is pushed later. *)
Lemma scan_pushed (n : nat) (state : State) (current : string) (all : list string)
    (s : string) :
  String.length s <= n ->
  scan state current all s = all ++ scan state current [] s.
Proof.
  revert state current all s.
  induction n as [|n IH]; intros state current all s Hn;
    (destruct s as [|c rest]; [reflexivity|cbn in Hn; try lia]).
  destruct state; cbn [scan app];
    repeat match goal with
           | |- context [if ?b then _ else _] => destruct b
           end;
    try solve [apply IH; lia];
    try solve [rewrite (IH _ _ (all ++ [current])), (IH _ _ [current]) by lia;
               now rewrite <- app_assoc].
  destruct rest as [|cc rest']; [reflexivity|]. apply IH. cbn in Hn. lia.
Qed.

(** In [Skipping], what was being read is pushed as it is, whatever
    follows. *)
Lemma scan_skipping (current : string) (all : list string) (s : string) :
  scan Skipping current all s = all ++ current :: tail (scan Skipping "" [] s).
Proof.
  rewrite (scan_pushed (String.length s) Skipping current all s) by lia. f_equal.
  induction s as [|c rest IH]; cbn [scan app]; [reflexivity|].
  destruct (is_blank c); [exact IH|].
  destruct (Ascii.eqb c squote);
    [|destruct (Ascii.eqb c dquote)];
    match goal with
    | |- scan ?st ?cur [current] rest = _ =>
        rewrite (scan_pushed (String.length rest) st cur [current] rest),
                (scan_pushed (String.length rest) st cur [""] rest) by lia
    end; reflexivity.
Qed.

(** A closed quoted segment at the start of the input is a token of its
    own; what follows it is split as if it stood alone. *)
Lemma split_segment (seg : segment) (b rest : string) :
  body seg = Some b ->
  split (written seg +:+ rest) = List.filter nonempty [b] ++ split rest.
Proof.
  intros Hb. unfold split. rewrite (scan_segment seg b) by assumption.
  rewrite scan_skipping. rewrite (scan_skipping "" [] rest) at 2.
  cbn [app List.filter]. change (nonempty "") with false. cbn iota.
  now destruct (nonempty b).
Qed.

Lemma split_juxtaposed (segs : list segment) (bodies : list string) (rest : string) :
  Forall2 (fun seg b => body seg = Some b) segs bodies ->
  split (juxtaposed segs +:+ rest) = List.filter nonempty bodies ++ split rest.
Proof.
  induction 1 as [|seg b segs bodies Hb _ IH]; cbn [juxtaposed].
  - reflexivity.
  - rewrite append_assoc, (split_segment seg b) by assumption. rewrite IH.
    cbn [List.filter]. now destruct (nonempty b).
Qed.

End AdjacentSegments.

(** C2, amended: a closing quote returns the tokenizer to [Skipping], so a
    quoted segment that follows another one at once starts a token of its
    own, whatever the two kinds of quote and whatever the bodies: quoted
    segments written one after another come out as one token for each
    body (an empty body as none), and what follows them is split as if it
    stood alone; where two of them follow what the tokenizer was reading
    in [Skipping], the first body is pushed as an element of its own
    before the second is read; and the example yields the two tokens [a]
    and [b]. *)
Theorem adjacent_quotes_are_separate :
  (forall segs bodies rest,
      Forall2 (fun seg b => Quoting.body seg = Some b) segs bodies ->
      Tokenizer.split (Quoting.juxtaposed segs +:+ rest)
      = (List.filter Tokenizer.nonempty bodies ++ Tokenizer.split rest)%list)
  /\ (forall seg1 seg2 b1 b2 current all rest,
        Quoting.body seg1 = Some b1 -> Quoting.body seg2 = Some b2 ->
        Tokenizer.scan Tokenizer.Skipping current all
          (Quoting.written seg1 +:+ (Quoting.written seg2 +:+ rest))
        = Tokenizer.scan Tokenizer.Skipping b2 (all ++ [current; b1])%list rest)
  /\ Tokenizer.split adjacent_example = ["a"; "b"].
Proof.
  split; [|split; [|reflexivity]].
  - apply split_juxtaposed.
  - intros seg1 seg2 b1 b2 current all rest H1 H2.
    rewrite (scan_segment seg1 b1), (scan_segment seg2 b2) by assumption.
    now rewrite <- app_assoc.
Qed.

Lemma adjacent_quotes_are_separate_witness :
  Tokenizer.split
    (Quoting.juxtaposed
       [Quoting.DoubleQuoted ("x" +:+ String Tokenizer.backslash "ny");
        Quoting.SingleQuoted "a b";
        Quoting.SingleQuoted "";
        Quoting.DoubleQuoted "z"]
     +:+ "c d")
  = ["x" +:+ String "010"%char "y"; "a b"; "z"; "c"; "d"].
Proof.
  apply (proj1 adjacent_quotes_are_separate
           [Quoting.DoubleQuoted ("x" +:+ String Tokenizer.backslash "ny");
            Quoting.SingleQuoted "a b";
            Quoting.SingleQuoted "";
            Quoting.DoubleQuoted "z"]
           ["x" +:+ String "010"%char "y"; "a b"; ""; "z"]
           "c d").
  repeat constructor.
Defined.

(** ** The resolver *)

Section Properties.

Context {num : Type} (num_truthy : num -> bool).
Context (minimist : list string -> list string -> list string -> ParsedArgs num).

Implicit Types (key k : string) (param p : Param num) (st : Env num)
  (r : Raw num) (params pre post : Params num).

Local Open Scope list_scope.

(** *** The first loop *)

Lemma normalise_idempotent p : normalise (normalise p) = normalise p.
Proof.
  unfold normalise. destruct (long p) as [[s|l]|] eqn:E; simpl; try now rewrite E.
  destruct (str_truthy s) eqn:Es; simpl; [reflexivity|]. now rewrite E, Es.
Qed.

Lemma declare_all_schema params d :
  snd (declare_all params d) = map (fun kp => (fst kp, normalise (snd kp))) params.
Proof.
  revert d. induction params as [|[key param] rest IH]; intros d; simpl; [reflexivity|].
  specialize (IH (fst (declare key param d))).
  destruct (declare_all rest _) as [d2 rest'] eqn:E. simpl in *. now subst.
Qed.

Lemma declare_normalised key p d : declare key (normalise p) d = declare key p d.
Proof. unfold declare. now rewrite normalise_idempotent. Qed.

Lemma declare_all_normalised params d :
  declare_all (map (fun kp => (fst kp, normalise (snd kp))) params) d
  = declare_all params d.
Proof.
  revert d. induction params as [|[key param] rest IH]; intros d; simpl; [reflexivity|].
  cbn [declare_all map fst snd]. now rewrite !normalise_idempotent, IH.
Qed.

(** *** The outcome rule *)

Lemma size_positive {A} (m : gmap string A) : Nat.ltb 0 (size m) = true -> m <> ∅.
Proof. intros H ->. now rewrite map_size_empty in H. Qed.

Lemma length_positive {A} (l : list A) : Nat.ltb 0 (length l) = true -> l <> [].
Proof. now intros H ->. Qed.

Lemma conclude_either_or help st a e h :
  conclude help st = (a, e, h) ->
  (a = Some (args st) /\ e = None
   /\ invalid (errors st) = ∅ /\ missing (errors st) = []
   /\ unexpected (errors st) = [])
  \/ (a = None /\ e = Some (errors st)
      /\ (invalid (errors st) <> ∅ \/ missing (errors st) <> []
          \/ unexpected (errors st) <> [])).
Proof.
  unfold conclude.
  destruct (Nat.ltb 0 (size (invalid (errors st)))) eqn:E1; simpl.
  { intros [= <- <- <-]. right. repeat split. left. now apply size_positive. }
  destruct (Nat.ltb 0 (length (missing (errors st)))) eqn:E2; simpl.
  { intros [= <- <- <-]. right. repeat split. right. left. now apply length_positive. }
  destruct (Nat.ltb 0 (length (unexpected (errors st)))) eqn:E3; simpl.
  { intros [= <- <- <-]. right. repeat split. right. right. now apply length_positive. }
  intros [= <- <- <-]. left. repeat split.
  - apply map_size_empty_inv. apply Nat.ltb_ge in E1. lia.
  - apply Nat.ltb_ge in E2. destruct (missing (errors st)); [reflexivity|simpl in E2; lia].
  - apply Nat.ltb_ge in E3. destruct (unexpected (errors st)); [reflexivity|simpl in E3; lia].
Qed.

Lemma parse_unfold s params :
  fst (parse num_truthy minimist s params)
  = bind (resolved num_truthy minimist s params) (fun st =>
    bind (leftovers st) (fun st' => Ok (conclude (help_of params) st'))).
Proof.
  unfold parse, resolved, help_of, begin.
  destruct (declare_all params _) as [d params']. reflexivity.
Qed.

Lemma parse_schema s params :
  snd (parse num_truthy minimist s params)
  = map (fun kp => (fst kp, normalise (snd kp))) params.
Proof.
  unfold parse. rewrite <- declare_all_schema with (d := {| options := []; flags := []; helpParams := []; helpOptions := [] |}).
  destruct (declare_all params _) as [d params']. reflexivity.
Qed.

(** *** What one source may change *)

Lemma resolve_as_sources key param st :
  resolve num_truthy key param st
  = bind (consult_all num_truthy key param (sources param) st)
      (fun st' => Ok (or_missing key param st')).
Proof.
  unfold resolve, sources. cbn [consult_all app consult].
  destruct (from_default num_truthy key param st) as [st1|e]; [|reflexivity].
  cbn [bind]. destruct (from_short num_truthy key param st1) as [st2|e]; [|reflexivity].
  cbn [bind]. unfold from_long.
  destruct (long_truthy (long param)); cbn [app].
  - generalize (long_items (long param)) st2. intros items.
    induction items as [|a items IH]; intros st3; cbn [from_aliases map consult_all consult app].
    + cbn [bind]. destruct (from_positional num_truthy key param st3); reflexivity.
    + destruct (from_alias num_truthy key param a st3) as [st4|e]; [|reflexivity].
      cbn [bind]. apply IH.
  - cbn [consult_all consult bind]. destruct (from_positional num_truthy key param st2); reflexivity.
Qed.

Lemma kept_refl st : kept st st.
Proof. now split. Qed.

Lemma kept_trans st1 st2 st3 : kept st1 st2 -> kept st2 st3 -> kept st1 st3.
Proof. intros [H1 H2] [H3 H4]. split; [congruence|auto]. Qed.

Lemma kept_set_arg key v st : kept st (set_arg key v st).
Proof. now split. Qed.

Lemma kept_set_raw r st : kept st (set_raw r st).
Proof. now split. Qed.

Lemma kept_set_invalid key err st : kept st (set_invalid key err st).
Proof.
  split; [reflexivity|]. intros k Hk. cbn. apply lookup_insert_is_Some'. now right.
Qed.

Lemma kept_push_missing key st : kept st (push_missing key st).
Proof. now split. Qed.

Lemma kept_store key res st : kept st (store key res st).
Proof. destruct res; [apply kept_set_arg|apply kept_set_invalid]. Qed.

(** *** Reading a field of [args] *)

Lemma field_own key (st : Env num) :
  inherited key = false -> field key st = args st !! key.
Proof. intros H. unfold field. rewrite H. now destruct (args st !! key). Qed.

Lemma field_some key (st : Env num) v :
  args st !! key = Some v -> field key st = Some v.
Proof. intros H. unfold field. now rewrite H. Qed.

Lemma field_none key (st : Env num) :
  field key st = None -> args st !! key = None /\ inherited key = false.
Proof.
  unfold field. destruct (args st !! key); [discriminate|].
  now destruct (inherited key).
Qed.


Lemma kept_or_assign key v st : kept st (or_assign num_truthy key v st).
Proof.
  unfold or_assign. destruct (field key st) as [old|]; [destruct (truthy _ old)|];
    auto using kept_refl, kept_set_arg.
Qed.

Lemma kept_or_missing key param st : kept st (or_missing key param st).
Proof.
  unfold or_missing.
  destruct (field key st) as [[]|]; destruct (is_bool param); destruct (optional param);
    auto using kept_refl, kept_set_arg, kept_push_missing.
Qed.

Lemma consult_kept key param src st st' :
  consult num_truthy key param src st = Ok st' -> kept st st'.
Proof.
  destruct src as [| |a|]; cbn [consult].
  - unfold from_default. destruct (default param) as [d|]; [destruct (str_truthy d)|];
      try (intros [= <-]; apply kept_refl).
    destruct (parser _ _ _) as [res|e]; [|discriminate]. intros [= <-]. apply kept_store.
  - unfold from_short. destruct (short param) as [s|]; [destruct (_ && _)|];
      try (intros [= <-]; apply kept_refl).
    destruct (parser _ _ _) as [res|e]; [|discriminate]. intros [= <-].
    eapply kept_trans; [apply kept_set_raw|apply kept_store].
  - unfold from_alias. destruct (raw_in a (raw st)); [|intros [= <-]; apply kept_refl].
    destruct (parser _ _ _) as [[val|err]|e]; [| |discriminate]; intros [= <-];
      (eapply kept_trans; [apply kept_set_raw|]).
    + destruct (is_bool param); [apply kept_or_assign|apply kept_set_arg].
    + apply kept_set_invalid.
  - unfold from_positional. destruct (_ && _); [|intros [= <-]; apply kept_refl].
    destruct (underscore (raw st)) as [[|tok rest]|]; [intros [= <-]; apply kept_refl| |discriminate].
    destruct (parser _ _ _) as [res|e]; [|discriminate]. intros [= <-].
    eapply kept_trans; [apply kept_set_raw|apply kept_store].
Qed.

Lemma consult_all_kept key param srcs st st' :
  consult_all num_truthy key param srcs st = Ok st' -> kept st st'.
Proof.
  revert st. induction srcs as [|src srcs IH]; intros st; cbn [consult_all].
  - intros [= <-]. apply kept_refl.
  - destruct (consult _ _ _ _ _) as [st1|e] eqn:E; [|discriminate]. cbn [bind].
    intros H. eapply kept_trans; [eapply consult_kept; eassumption|now apply IH].
Qed.

Lemma resolve_kept key param st st' :
  resolve num_truthy key param st = Ok st' -> kept st st'.
Proof.
  rewrite resolve_as_sources.
  destruct (consult_all _ _ _ _ _) as [st1|e] eqn:E; [|discriminate]. intros [= <-].
  eapply kept_trans; [eapply consult_all_kept; eassumption|apply kept_or_missing].
Qed.

Lemma resolve_all_kept params st st' :
  resolve_all num_truthy params st = Ok st' -> kept st st'.
Proof.
  revert st. induction params as [|[key param] rest IH]; intros st; cbn [resolve_all].
  - intros [= <-]. apply kept_refl.
  - destruct (resolve _ _ _ _) as [st1|e] eqn:E; [|discriminate]. cbn [bind].
    intros H. eapply kept_trans; [eapply resolve_kept; eassumption|now apply IH].
Qed.

(** *** When the second loop goes through *)

Lemma parser_tame param v :
  tame param -> exists res, parser num_truthy param v = Ok res.
Proof.
  intros Ht. unfold parser. destruct (type param) as [[|f]|] eqn:E; eauto.
  destruct (f v) as [x|err|x] eqn:Ef; eauto. now apply (Ht f v x) in E.
Qed.

Lemma raw_store key res st : raw (store key res st) = raw st.
Proof. now destruct res. Qed.

Lemma raw_or_assign key v st : raw (or_assign num_truthy key v st) = raw st.
Proof.
  unfold or_assign. destruct (field key st) as [old|]; [destruct (truthy _ old)|];
    reflexivity.
Qed.

Lemma raw_or_missing key param st : raw (or_missing key param st) = raw st.
Proof.
  unfold or_missing.
  destruct (field key st) as [[]|]; destruct (is_bool param); destruct (optional param);
    reflexivity.
Qed.

Lemma underscore_delete a r :
  a <> reserved -> underscore (raw_delete a r) = underscore r.
Proof.
  intros Ha. unfold raw_delete. apply String.eqb_neq in Ha. now rewrite Ha.
Qed.

Lemma short_in_names param s :
  short param = Some s -> str_truthy s = true -> In s (names param).
Proof.
  intros Hs Ht. unfold names. apply in_or_app. left.
  unfold opt_truthy. rewrite Hs, Ht. now left.
Qed.

Lemma alias_in_names param a :
  In (FromAlias a) (sources param) -> In a (names param).
Proof.
  unfold sources, names. cbn [app]. intros [H|[H|H]]; try discriminate.
  apply in_or_app. right. apply in_app_or in H as [H|[H|[]]]; [|discriminate].
  destruct (long_truthy (long param)); [|destruct H].
  apply in_map_iff in H as (x & [= ->] & Hx). exact Hx.
Qed.

Lemma consult_total key param src st :
  tame param -> ~ In reserved (names param) -> In src (sources param) ->
  is_Some (underscore (raw st)) ->
  exists st', consult num_truthy key param src st = Ok st'
              /\ is_Some (underscore (raw st')).
Proof.
  intros Ht Hres Hsrc Hu. destruct src as [| |a|]; cbn [consult].
  - unfold from_default. destruct (default param) as [d|]; [destruct (str_truthy d)|]; eauto.
    destruct (parser_tame param (VStr d) Ht) as [res ->]. cbn [bind].
    eexists; split; [reflexivity|]. now rewrite raw_store.
  - unfold from_short. destruct (short param) as [s|] eqn:Es; eauto.
    destruct (str_truthy s) eqn:Est; cbn [andb]; eauto.
    destruct (raw_in s (raw st)); eauto.
    destruct (parser_tame param (raw_get s (raw st)) Ht) as [res ->]. cbn [bind].
    eexists; split; [reflexivity|]. rewrite raw_store. cbn.
    rewrite underscore_delete; [assumption|].
    intros ->. apply Hres. eapply short_in_names; eassumption.
  - unfold from_alias. destruct (raw_in a (raw st)); eauto.
    destruct (parser_tame param (raw_get a (raw st)) Ht) as [res ->]. cbn [bind].
    eexists; split; [reflexivity|].
    assert (Hd : underscore (raw_delete a (raw st)) = underscore (raw st)).
    { apply underscore_delete. intros ->. apply Hres. now apply alias_in_names. }
    destruct res as [val|err]; [destruct (is_bool param)|];
      rewrite ?raw_or_assign; cbn; now rewrite Hd.
  - unfold from_positional. destruct (_ && _); eauto.
    destruct (underscore (raw st)) as [[|tok rest]|] eqn:Hl; [rewrite <- Hl in Hu; eauto| |now destruct Hu].
    destruct (parser_tame param tok Ht) as [res ->]. cbn [bind].
    eexists; split; [reflexivity|]. rewrite raw_store. cbn. eauto.
Qed.

Lemma consult_all_total key param srcs st :
  tame param -> ~ In reserved (names param) -> incl srcs (sources param) ->
  is_Some (underscore (raw st)) ->
  exists st', consult_all num_truthy key param srcs st = Ok st'
              /\ is_Some (underscore (raw st')).
Proof.
  intros Ht Hres. revert st. induction srcs as [|src srcs IH]; intros st Hin Hu.
  - cbn. eauto.
  - cbn [consult_all].
    destruct (consult_total key param src st Ht Hres) as (st1 & -> & Hu1);
      [apply Hin; now left|assumption|].
    cbn [bind]. apply IH; [|assumption]. intros x Hx. apply Hin. now right.
Qed.

Lemma resolve_total key param st :
  tame param -> ~ In reserved (names param) -> is_Some (underscore (raw st)) ->
  exists st', resolve num_truthy key param st = Ok st'
              /\ is_Some (underscore (raw st')).
Proof.
  intros Ht Hres Hu. rewrite resolve_as_sources.
  destruct (consult_all_total key param (sources param) st Ht Hres) as (st1 & -> & Hu1);
    [apply incl_refl|assumption|].
  cbn [bind]. eexists; split; [reflexivity|]. now rewrite raw_or_missing.
Qed.

Lemma tame_normalise param : tame param -> tame (normalise param).
Proof.
  unfold tame, normalise. intros Ht f arg x.
  destruct (long param) as [[s|l]|]; [destruct (str_truthy s)| |]; cbn; apply Ht.
Qed.

Lemma resolve_all_total params st :
  well_behaved params -> is_Some (underscore (raw st)) ->
  exists st', resolve_all num_truthy (map (fun kp => (fst kp, normalise (snd kp))) params) st
              = Ok st'
              /\ is_Some (underscore (raw st')).
Proof.
  intros Hwb. revert st. induction Hwb as [|[key param] rest [Ht Hres] _ IH]; intros st Hu.
  - cbn. eauto.
  - cbn [map resolve_all fst snd].
    destruct (resolve_total key (normalise param) st) as (st1 & -> & Hu1);
      [now apply tame_normalise|exact Hres|assumption|].
    cbn [bind]. now apply IH.
Qed.

(** *** The claims about the call as a whole *)

Lemma parse_reports s params stf a e h :
  resolved num_truthy minimist s params = Ok stf ->
  fst (parse num_truthy minimist s params) = Ok (a, e, h) ->
  exists rest st',
    underscore (raw stf) = Some rest
    /\ conclude (help_of params) st' = (a, e, h)
    /\ args st' = args stf
    /\ invalid (errors st') = invalid (errors stf)
    /\ missing (errors st') = missing (errors stf)
    /\ unexpected (errors st') = unclaimed rest (named (raw stf)).
Proof.
  intros Hres. rewrite parse_unfold, Hres. cbn [bind]. unfold leftovers.
  destruct (underscore (raw stf)) as [rest|] eqn:Hu; [|discriminate].
  cbn [bind]. intros [= Hc]. eexists _, _. split; [reflexivity|].
  split; [exact Hc|]. cbn. repeat split.
  apply resolve_all_kept in Hres as [Hres _]. now rewrite Hres.
Qed.

(** C1: whatever [parse] returns is either a result with no error report,
    or no result with an error report in which one of [invalid],
    [missing], [unexpected] is not empty; and on a schema whose
    coercions throw nothing but [ParseError] and whose aliases avoid the
    reserved key, [parse] does return. *)
Theorem parse_either_or (s : Input) params :
  (forall a e h,
      fst (parse num_truthy minimist s params) = Ok (a, e, h) ->
      (is_Some a /\ e = None)
      \/ (a = None
          /\ exists report, e = Some report
             /\ (invalid report <> ∅ \/ missing report <> []
                 \/ unexpected report <> [])))
  /\ (well_behaved params ->
      exists a e h, fst (parse num_truthy minimist s params) = Ok (a, e, h)).
Proof.
  split.
  - intros a e h. rewrite parse_unfold.
    destruct (resolved _ _ _ _) as [st|x]; [|discriminate]. cbn [bind].
    destruct (leftovers st) as [st'|x]; [|discriminate]. cbn [bind].
    intros [= H]. apply conclude_either_or in H as [(-> & -> & _)|(-> & -> & H)].
    + left. eauto.
    + right. eauto.
  - intros Hwb. rewrite parse_unfold. unfold resolved. rewrite declare_all_schema.
    destruct (resolve_all_total params (begin minimist s params) Hwb) as (st & -> & [rest Hu]).
    { unfold begin, start. cbn. eauto. }
    cbn [bind]. unfold leftovers. rewrite Hu. cbn [bind].
    destruct (conclude _ _) as [[a e] h]. eauto.
Qed.

(** C5, amended: the call changes the schema in one way only.  A [long]
    that is a non-empty string is replaced, in place, by the one-element
    list holding it; every other field of every descriptor, and the keys
    and their order, are as before. *)
Theorem parse_rewrites_long_only (s : Input) params :
  snd (parse num_truthy minimist s params)
  = map (fun kp => (fst kp, normalise (snd kp))) params
  /\ forall p,
      short (normalise p) = short p
      /\ type (normalise p) = type p
      /\ optional (normalise p) = optional p
      /\ default (normalise p) = default p
      /\ (forall a, long p = Some (LongString a) -> a <> "" ->
          long (normalise p) = Some (LongArray [a]))
      /\ ((forall a, long p = Some (LongString a) -> a = "") -> normalise p = p).
Proof.
  split; [apply parse_schema|]. intros p. unfold normalise.
  destruct (long p) as [[a|l]|] eqn:E; [destruct (str_truthy a) eqn:Ea| |]; cbn;
    (do 4 (split; [reflexivity|])); (split; [intros b Hb Hne|intros H]);
    try congruence.
  - specialize (H a eq_refl). subst a. discriminate Ea.
  - injection Hb as <-. unfold str_truthy in Ea.
    apply negb_false_iff, String.eqb_eq in Ea. contradiction.
Qed.

(** C8: a second call with the same input and the same schema object,
    as the first call left it, returns what the first call returned, and
    leaves the schema as it found it. *)
Theorem parse_twice (s : Input) params :
  parse num_truthy minimist s (snd (parse num_truthy minimist s params))
  = parse num_truthy minimist s params.
Proof.
  rewrite parse_schema. unfold parse. now rewrite declare_all_normalised.
Qed.

(** C6, amended: after all parameters are resolved, every remaining
    positional token other than the empty string, then every remaining
    key of the raw object other than the reserved one, is recorded in
    that order under [unexpected]; when there is any, the call returns
    the error report. *)
Theorem leftovers_reported (s : Input) params st rest :
  resolved num_truthy minimist s params = Ok st ->
  underscore (raw st) = Some rest ->
  exists a e h,
    fst (parse num_truthy minimist s params) = Ok (a, e, h)
    /\ (forall report, e = Some report ->
        unexpected report = unclaimed rest (named (raw st)))
    /\ (unclaimed rest (named (raw st)) <> [] ->
        a = None /\ exists report, e = Some report).
Proof.
  intros Hres Hu.
  assert (Hp : exists a e h, fst (parse num_truthy minimist s params) = Ok (a, e, h)).
  { rewrite parse_unfold, Hres. cbn [bind]. unfold leftovers. rewrite Hu. cbn [bind].
    destruct (conclude _ _) as [[a e] h]. eauto. }
  destruct Hp as (a & e & h & Hp). exists a, e, h. split; [exact Hp|].
  destruct (parse_reports s params st a e h Hres Hp)
    as (rest' & st' & Hu' & Hc & _ & _ & _ & Hx).
  rewrite Hu in Hu'. injection Hu' as <-.
  apply conclude_either_or in Hc as [(-> & -> & _ & _ & Hn)|(-> & -> & _)].
  - split; [discriminate|]. intros Hne. now rewrite <- Hx in Hne.
  - split; [|eauto]. intros report [= <-]. exact Hx.
Qed.

(** *** Coercion failures stay on record *)

Lemma consult_all_app key param xs ys st :
  consult_all num_truthy key param (xs ++ ys) st
  = bind (consult_all num_truthy key param xs st) (consult_all num_truthy key param ys).
Proof.
  revert st. induction xs as [|x xs IH]; intros st; cbn [app consult_all bind]; [reflexivity|].
  destruct (consult _ _ _ _ _) as [st1|e]; cbn [bind]; [apply IH|reflexivity].
Qed.

Lemma resolve_all_app pre post st :
  resolve_all num_truthy (pre ++ post) st
  = bind (resolve_all num_truthy pre st) (resolve_all num_truthy post).
Proof.
  revert st. induction pre as [|[key param] pre IH]; intros st;
    cbn [app resolve_all bind]; [reflexivity|].
  destruct (resolve _ _ _ _) as [st1|e]; cbn [bind]; [apply IH|reflexivity].
Qed.

Lemma resolved_schema s params :
  resolved num_truthy minimist s params
  = resolve_all num_truthy (snd (parse num_truthy minimist s params))
      (begin minimist s params).
Proof. unfold resolved. now rewrite declare_all_schema, parse_schema. Qed.

(** C10: no source removes a name from [invalid]; so once any source of
    any parameter has recorded a coercion failure, whatever the later
    sources do, a call that returns returns no result and an error report
    that still has the name under [invalid]. *)
Theorem invalid_is_never_cleared (s : Input) params :
  (forall key param src st st' k,
      consult num_truthy key param src st = Ok st' ->
      is_Some (invalid (errors st) !! k) ->
      is_Some (invalid (errors st') !! k))
  /\ (forall pre key param post srcs later st st1 k a e h,
      snd (parse num_truthy minimist s params) = pre ++ (key, param) :: post ->
      resolve_all num_truthy pre (begin minimist s params) = Ok st ->
      sources param = srcs ++ later ->
      consult_all num_truthy key param srcs st = Ok st1 ->
      is_Some (invalid (errors st1) !! k) ->
      fst (parse num_truthy minimist s params) = Ok (a, e, h) ->
      a = None
      /\ exists report, e = Some report /\ is_Some (invalid report !! k)).
Proof.
  split.
  - intros key param src st st' k H. apply consult_kept in H as [_ H]. apply H.
  - intros pre key param post srcs later st st1 k a e h Hschema Hpre Hsrcs Hsome Hk Hp.
    destruct (resolved num_truthy minimist s params) as [stf|x] eqn:Hres.
    2:{ rewrite parse_unfold, Hres in Hp. discriminate Hp. }
    assert (Hkf : is_Some (invalid (errors stf) !! k)).
    { rewrite resolved_schema, Hschema, resolve_all_app, Hpre in Hres.
      cbn [bind resolve_all] in Hres.
      rewrite resolve_as_sources, Hsrcs, consult_all_app, Hsome in Hres.
      cbn [bind] in Hres.
      destruct (consult_all _ _ _ later st1) as [st2|x] eqn:E2; [|discriminate Hres].
      cbn [bind] in Hres.
      apply consult_all_kept in E2 as [_ E2]. apply resolve_all_kept in Hres as [_ Hres].
      apply Hres. apply (kept_or_missing key param st2). now apply E2. }
    destruct (parse_reports s params stf a e h Hres Hp)
      as (rest & st' & _ & Hc & _ & Hi & _).
    apply conclude_either_or in Hc as [(_ & _ & He & _)|(-> & -> & _)].
    + rewrite Hi in He. rewrite He, lookup_empty in Hkf. now destruct Hkf.
    + split; [reflexivity|]. eexists; split; [reflexivity|]. now rewrite Hi.
Qed.

(** *** An empty-string default *)

Lemma help_pieces_drop key p p' :
  drops_empty_default p p' -> help_pieces key p' = help_pieces key p.
Proof. intros [->|[Hd ->]]; [reflexivity|]. unfold help_pieces. cbn. now rewrite Hd. Qed.

Lemma normalise_drop p p' :
  drops_empty_default p p' -> drops_empty_default (normalise p) (normalise p').
Proof.
  intros [->|[Hd ->]]; [now left|]. right. unfold normalise. cbn.
  destruct (long p) as [[a|l]|]; [destruct (str_truthy a)| |]; cbn; now split.
Qed.

Lemma declare_drop key p p' d :
  drops_empty_default p p' ->
  fst (declare key p' d) = fst (declare key p d)
  /\ drops_empty_default (snd (declare key p d)) (snd (declare key p' d)).
Proof.
  intros H. split; [|now apply normalise_drop].
  apply normalise_drop in H. unfold declare. cbn [fst].
  rewrite (help_pieces_drop key _ _ H).
  destruct H as [->|[_ ->]]; reflexivity.
Qed.

Lemma declare_all_drop params params' d :
  Forall2 (fun kp kp' => fst kp' = fst kp /\ drops_empty_default (snd kp) (snd kp'))
    params params' ->
  fst (declare_all params' d) = fst (declare_all params d)
  /\ Forall2 (fun kp kp' => fst kp' = fst kp /\ drops_empty_default (snd kp) (snd kp'))
       (snd (declare_all params d)) (snd (declare_all params' d)).
Proof.
  intros H. revert d. induction H as [|[key p] [key' p'] rest rest' [Hk Hp] _ IH]; intros d.
  - split; [reflexivity|constructor].
  - cbn in Hk, Hp. subst key'. cbn [declare_all].
    destruct (declare_drop key p p' d Hp) as [H1 H2].
    destruct (declare key p d) as [d1 q] eqn:E, (declare key p' d) as [d1' q'] eqn:E'.
    cbn in H1, H2. subst d1'. specialize (IH d1).
    destruct (declare_all rest d1) as [d2 r2], (declare_all rest' d1) as [d2' r2'].
    cbn in *. destruct IH as [-> IH]. split; [reflexivity|]. constructor; [now split|exact IH].
Qed.

Lemma from_default_empty key p st :
  default p = Some "" -> from_default num_truthy key p st = Ok st.
Proof. intros H. unfold from_default. now rewrite H. Qed.

Lemma from_aliases_drop key p ps st :
  from_aliases num_truthy key (without_default p) ps st
  = from_aliases num_truthy key p ps st.
Proof.
  revert st. induction ps as [|a ps IH]; intros st; cbn [from_aliases]; [reflexivity|].
  change (from_alias num_truthy key (without_default p) a st)
    with (from_alias num_truthy key p a st).
  destruct (from_alias num_truthy key p a st); cbn [bind]; [apply IH|reflexivity].
Qed.

Lemma resolve_drop key p p' st :
  drops_empty_default p p' ->
  resolve num_truthy key p' st = resolve num_truthy key p st.
Proof.
  intros [->|[Hd ->]]; [reflexivity|]. unfold resolve.
  rewrite (from_default_empty key p st Hd).
  change (from_default num_truthy key (without_default p) st) with (@Ok num _ st).
  cbn [bind]. change (from_short num_truthy key (without_default p) st)
    with (from_short num_truthy key p st).
  destruct (from_short num_truthy key p st) as [st2|x]; [|reflexivity]. cbn [bind].
  unfold from_long. change (long (without_default p)) with (long p).
  rewrite from_aliases_drop. reflexivity.
Qed.

Lemma resolve_all_drop params params' st :
  Forall2 (fun kp kp' => fst kp' = fst kp /\ drops_empty_default (snd kp) (snd kp'))
    params params' ->
  resolve_all num_truthy params' st = resolve_all num_truthy params st.
Proof.
  intros H. revert st. induction H as [|[key p] [key' p'] rest rest' [Hk Hp] _ IH]; intros st.
  - reflexivity.
  - cbn in Hk, Hp. subst key'. cbn [resolve_all]. rewrite (resolve_drop key p p' st Hp).
    destruct (resolve _ _ _ _); cbn [bind]; [apply IH|reflexivity].
Qed.

Lemma parse_drop s params params' :
  Forall2 (fun kp kp' => fst kp' = fst kp /\ drops_empty_default (snd kp) (snd kp'))
    params params' ->
  fst (parse num_truthy minimist s params') = fst (parse num_truthy minimist s params).
Proof.
  intros H. rewrite !parse_unfold. unfold resolved, help_of, begin.
  destruct (declare_all_drop params params'
              {| options := []; flags := []; helpParams := []; helpOptions := [] |} H)
    as [-> H2].
  now rewrite (resolve_all_drop _ _ _ H2).
Qed.

Lemma drop_related_refl params :
  Forall2 (fun kp kp' => fst kp' = fst kp /\ drops_empty_default (snd kp) (snd kp'))
    params params.
Proof. induction params; constructor; [split; [reflexivity|now left]|assumption]. Qed.

Lemma from_aliases_unbound key param ps st :
  Forall (fun a => raw_in a (raw st) = false) ps ->
  from_aliases num_truthy key param ps st = Ok st.
Proof.
  induction 1 as [|a ps Ha _ IH]; cbn [from_aliases]; [reflexivity|].
  unfold from_alias. rewrite Ha. exact IH.
Qed.

Lemma filter_nil_forall {A} (f : A -> bool) (l : list A) :
  List.filter f l = [] -> Forall (fun a => f a = false) l.
Proof.
  induction l as [|a l IH]; cbn; [constructor|].
  destruct (f a) eqn:E; [discriminate|]. intros H. constructor; auto.
Qed.

Lemma resolve_nothing_offered key p st :
  offered p (raw st) = [] ->
  (positional p = true -> is_Some (underscore (raw st))) ->
  resolve num_truthy key p st = Ok (or_missing key p st).
Proof.
  unfold offered. intros H Hu.
  apply app_eq_nil in H as [Hd H]. apply app_eq_nil in H as [Hs H].
  apply app_eq_nil in H as [Hl Hp]. unfold resolve.
  assert (E1 : from_default num_truthy key p st = Ok st).
  { unfold from_default. destruct (default p) as [d|]; [|reflexivity].
    destruct (str_truthy d); [discriminate Hd|reflexivity]. }
  rewrite E1. cbn [bind].
  assert (E2 : from_short num_truthy key p st = Ok st).
  { unfold from_short. destruct (short p) as [a|]; [|reflexivity].
    destruct (str_truthy a && raw_in a (raw st)); [discriminate Hs|reflexivity]. }
  rewrite E2. cbn [bind].
  assert (E3 : from_long num_truthy key p st = Ok st).
  { unfold from_long. destruct (long_truthy (long p)) eqn:E; [|reflexivity].
    apply from_aliases_unbound. unfold hits, bound, long_names in Hl.
    rewrite E in Hl. apply map_eq_nil in Hl.
    now apply filter_nil_forall in Hl. }
  rewrite E3. cbn [bind].
  unfold from_positional. fold (positional p). destruct (positional p); [|reflexivity].
  destruct (underscore (raw st)) as [[|tok rest]|]; [reflexivity|discriminate Hp|].
  now destruct (Hu eq_refl).
Qed.

(** X18: a parameter whose [default] is the empty string is treated as
    one with no default: the default seeds nothing, the help line ends in
    [<name>], the call returns what it returns when the default is left
    out, and when nothing else is offered to a parameter that is neither
    optional nor a flag, and whose field reads as unset, its name goes
    under [missing]. *)
Theorem empty_default_is_no_default (s : Input) pre key p post :
  default p = Some "" ->
  (forall st, from_default num_truthy key p st = Ok st)
  /\ (is_bool p = false ->
      exists front, help_pieces key p = front ++ ["<" +:+ key +:+ ">"])
  /\ fst (parse num_truthy minimist s (pre ++ (key, p) :: post))
     = fst (parse num_truthy minimist s (pre ++ (key, without_default p) :: post))
  /\ (forall st,
        is_bool p = false -> optional p = false ->
        offered p (raw st) = [] ->
        (positional p = true -> is_Some (underscore (raw st))) ->
        field key st = None ->
        resolve num_truthy key p st = Ok (push_missing key st)).
Proof.
  intros Hd. split; [|split; [|split]].
  - intros st. now apply from_default_empty.
  - intros Hb. unfold help_pieces. rewrite Hb, Hd. cbn [opt_truthy str_truthy String.eqb negb].
    eexists (_ ++ _). now rewrite <- app_assoc.
  - symmetry. apply parse_drop. apply Forall2_app; [apply drop_related_refl|].
    constructor; [|apply drop_related_refl]. split; [reflexivity|]. right. now split.
  - intros st Hb Ho Hoff Hu Hargs. rewrite resolve_nothing_offered by assumption.
    unfold or_missing. now rewrite Hargs, Hb, Ho.
Qed.

(** *** Looking names up in the raw object *)







(** *** Layering *)







Lemma from_long_names key param st :
  from_long num_truthy key param st
  = from_aliases num_truthy key param (long_names param) st.
Proof. unfold from_long, long_names. now destruct (long_truthy (long param)). Qed.




(** *** One parameter, all its sources *)

Lemma args_or_missing key param st :
  is_bool param = false -> args (or_missing key param st) = args st.
Proof.
  intros Hb. unfold or_missing. rewrite Hb.
  now destruct (field key st) as [[]|]; destruct (optional param).
Qed.

Lemma store_value key param v res seed st :
  parser num_truthy param v = Ok res ->
  args st !! key = seed ->
  args (store key res st) !! key = layered num_truthy param [v] seed.
Proof.
  intros Hp Hs. cbn [layered]. rewrite Hp. destruct res as [val|err]; cbn.
  - now rewrite lookup_insert_eq.
  - exact Hs.
Qed.

Lemma from_default_value key param st :
  tame param ->
  exists st',
    from_default num_truthy key param st = Ok st'
    /\ raw st' = raw st
    /\ args st' !! key
       = layered num_truthy param
           match default param with
           | Some d => if str_truthy d then [VStr d] else []
           | None => []
           end (args st !! key).
Proof.
  intros Ht. unfold from_default.
  destruct (default param) as [d|]; [destruct (str_truthy d)|]; eauto.
  destruct (parser_tame param (VStr d) Ht) as [res Hres]. rewrite Hres. cbn [bind].
  eexists; split; [reflexivity|]. split; [apply raw_store|].
  now apply store_value.
Qed.



Lemma names_split param :
  names param
  = (if opt_truthy (short param)
     then match short param with Some a => [a] | None => [] end else [])
    ++ long_names param.
Proof. reflexivity. Qed.


(** *** Positional parameters *)

Lemma lookup_store_ne key k res st :
  k <> key -> args (store key res st) !! k = args st !! k.
Proof.
  intros Hne. destruct res as [val|err]; cbn; [|reflexivity].
  now rewrite lookup_insert_ne.
Qed.

Lemma lookup_or_missing_ne key k param st :
  k <> key -> args (or_missing key param st) !! k = args st !! k.
Proof.
  intros Hne. unfold or_missing.
  destruct (field key st) as [[]|]; destruct (is_bool param); destruct (optional param);
    cbn; rewrite ?lookup_insert_ne; congruence.
Qed.

Lemma or_missing_keeps key param tok v st :
  parser num_truthy param tok = Ok (inl v) ->
  args st !! key = Some v ->
  args (or_missing key param st) !! key = Some v.
Proof.
  intros Hp Hv. destruct (is_bool param) eqn:Hb.
  - unfold parser in Hp. unfold is_bool in Hb.
    destruct (type param) as [[|f]|]; try discriminate Hb. injection Hp as <-.
    unfold or_missing. now rewrite (field_some key st _ Hv).
  - now rewrite args_or_missing.
Qed.

Lemma resolve_positional key param st toks :
  positional param = true -> tame param ->
  underscore (raw st) = Some toks ->
  exists st',
    resolve num_truthy key param st = Ok st'
    /\ underscore (raw st') = Some (tail toks)
    /\ (forall k, k <> key -> args st' !! k = args st !! k)
    /\ (forall tok v,
          head toks = Some tok -> parser num_truthy param tok = Ok (inl v) ->
          args st' !! key = Some v).
Proof.
  intros Hp Ht Hu. unfold resolve.
  destruct (from_default_value key param st Ht) as (st1 & Hst1 & Hr1 & _).
  assert (Ho1 : forall k, k <> key -> args st1 !! k = args st !! k).
  { intros k Hne. unfold from_default in Hst1.
    destruct (default param) as [d|]; [destruct (str_truthy d)|]; try congruence.
    destruct (parser _ _ _) as [res|x]; [|discriminate]. injection Hst1 as <-.
    now apply lookup_store_ne. }
  rewrite Hst1. cbn [bind].
  pose proof Hp as Hp'. unfold positional in Hp'. apply andb_prop in Hp' as [Hs Hl].
  apply negb_true_iff in Hs, Hl.
  assert (E2 : from_short num_truthy key param st1 = Ok st1).
  { unfold from_short. unfold opt_truthy in Hs.
    destruct (short param) as [a|]; [|reflexivity]. now rewrite Hs. }
  rewrite E2. cbn [bind]. unfold from_long. rewrite Hl. cbn [bind].
  unfold from_positional. fold (positional param). rewrite Hp, Hr1, Hu.
  destruct toks as [|tok rest].
  - cbn [bind]. eexists; split; [reflexivity|]. rewrite raw_or_missing, Hr1.
    split; [exact Hu|]. split; [|discriminate].
    intros k Hne. rewrite lookup_or_missing_ne by assumption. now apply Ho1.
  - destruct (parser_tame param tok Ht) as [res Hres]. rewrite Hres. cbn [bind].
    eexists; split; [reflexivity|]. rewrite raw_or_missing, raw_store.
    split; [reflexivity|]. split.
    + intros k Hne. rewrite lookup_or_missing_ne, lookup_store_ne by assumption.
      now apply Ho1.
    + intros tok' v [= <-] Hv. rewrite Hv in Hres. injection Hres as <-.
      apply (or_missing_keeps key param tok v); [exact Hv|].
      cbn. now rewrite lookup_insert_eq.
Qed.

(** Pure positionals take the tokens first in, first out. *)
Lemma resolve_all_fifo params st toks :
  Forall (fun kp => positional (snd kp) = true /\ tame (snd kp)) params ->
  NoDup (map fst params) ->
  underscore (raw st) = Some toks ->
  exists st',
    resolve_all num_truthy params st = Ok st'
    /\ (forall k, ~ In k (map fst params) -> args st' !! k = args st !! k)
    /\ (forall i key param tok v,
          params !! i = Some (key, param) -> toks !! i = Some tok ->
          parser num_truthy param tok = Ok (inl v) ->
          args st' !! key = Some v).
Proof.
  intros Hall. revert st toks.
  induction Hall as [|[key0 param0] rest [Hp Ht] _ IH]; intros st toks Hnd Hu.
  - cbn. eexists; split; [reflexivity|]. split; [reflexivity|]. intros i ? ? ? ? [=].
  - cbn [map fst] in Hnd. apply NoDup_cons in Hnd as [Hk0 Hnd].
    rewrite list_elem_of_In in Hk0. cbn [snd] in Hp, Ht.
    destruct (resolve_positional key0 param0 st toks Hp Ht Hu) as (st1 & Hst1 & Hu1 & Ho1 & Hv1).
    destruct (IH st1 (tail toks) Hnd Hu1) as (st' & Hst' & Ho' & Hv').
    exists st'. cbn [resolve_all]. rewrite Hst1. cbn [bind]. split; [exact Hst'|]. split.
    + intros k Hk. cbn [map fst] in Hk. rewrite Ho'; [apply Ho1|]; intros ?; apply Hk.
      * now left.
      * now right.
    + intros [|i] key param tok v Hparam Htok Hv.
      * cbn in Hparam. injection Hparam as <- <-. rewrite Ho' by assumption.
        apply (Hv1 tok v); [|exact Hv]. now destruct toks.
      * cbn in Hparam. apply (Hv' i key param tok v); [exact Hparam| |exact Hv].
        now destruct toks.
Qed.

End Properties.

(** ** The properties at sample inputs *)




Lemma fruit_vegetable_well_behaved : well_behaved fruit_vegetable.
Proof. repeat constructor; try (intros f arg x H; discriminate H); cbn; intros []. Defined.

Lemma parse_either_or_witness :
  well_behaved fruit_vegetable
  /\ exists a e h,
      fst (parse z_truthy splitter (InString "apple carrot") fruit_vegetable) = Ok (a, e, h).
Proof.
  split; [exact fruit_vegetable_well_behaved|].
  exact (proj2 (parse_either_or z_truthy splitter (InString "apple carrot") fruit_vegetable)
           fruit_vegetable_well_behaved).
Defined.

(** C5, as stated, fails: a call on a schema whose [long] is a string
    leaves a schema that differs from the one it was given. *)
Lemma schema_is_rewritten :
  snd (parse z_truthy splitter (InString "--fruit apple") fruit_long) <> fruit_long.
Proof. vm_compute. discriminate. Qed.

Lemma parse_rewrites_long_only_witness :
  snd (parse z_truthy splitter (InString "--fruit apple") fruit_long)
  = [("fruit", normalise fruit_option)]
  /\ long (normalise fruit_option) = Some (LongArray ["fruit"]).
Proof.
  destruct (parse_rewrites_long_only z_truthy splitter (InString "--fruit apple") fruit_long)
    as [H1 H2].
  split; [exact H1|].
  destruct (H2 fruit_option) as (_ & _ & _ & _ & H5 & _).
  apply H5; [reflexivity|discriminate].
Defined.

(** C6, as stated, fails: of the two positional tokens that remain, the
    empty string and [x], only [x] is recorded under [unexpected]. *)
Lemma empty_token_is_dropped :
  exists st report h,
    resolved z_truthy splitter (InArray [""; "x"]) [] = Ok st
    /\ underscore (raw st) = Some [VStr ""; VStr "x"]
    /\ fst (parse z_truthy splitter (InArray [""; "x"]) []) = Ok (None, Some report, h)
    /\ unexpected report = [VStr "x"]
    /\ ~ In (VStr "") (unexpected report).
Proof.
  eexists _, _, _. split; [reflexivity|]. split; [reflexivity|].
  split; [reflexivity|]. split; [reflexivity|].
  cbn. intros [H|[]]. discriminate H.
Qed.

Lemma leftovers_reported_witness :
  exists st rest a e h,
    resolved z_truthy splitter (InString "--fruit apple") verbose_only = Ok st
    /\ underscore (raw st) = Some rest
    /\ unclaimed rest (named (raw st)) = [VStr "fruit"]
    /\ fst (parse z_truthy splitter (InString "--fruit apple") verbose_only) = Ok (a, e, h)
    /\ (forall report, e = Some report ->
        unexpected report = unclaimed rest (named (raw st)))
    /\ (unclaimed rest (named (raw st)) <> [] -> a = None /\ exists report, e = Some report).
Proof.
  destruct (resolved z_truthy splitter (InString "--fruit apple") verbose_only)
    as [st|x] eqn:E; [|vm_compute in E; discriminate E].
  destruct (underscore (raw st)) as [rest|] eqn:Eu.
  2:{ vm_compute in E. injection E as <-. discriminate Eu. }
  destruct (leftovers_reported z_truthy splitter (InString "--fruit apple") verbose_only
              st rest E Eu) as (a & e & h & Hp & H1 & H2).
  exists st, rest, a, e, h. split; [reflexivity|]. split; [exact Eu|].
  split; [|split; [exact Hp|split; [exact H1|exact H2]]].
  vm_compute in E. injection E as <-. cbn in Eu. injection Eu as <-. reflexivity.
Defined.

Lemma invalid_is_never_cleared_witness :
  exists st a e h,
    resolved z_truthy splitter (InString "--count 5") count_defaulted = Ok st
    /\ args st !! "count" = Some (VNum 5%Z)
    /\ fst (parse z_truthy splitter (InString "--count 5") count_defaulted) = Ok (a, e, h)
    /\ a = None
    /\ exists report, e = Some report /\ is_Some (invalid report !! "count").
Proof.
  destruct (fst (parse z_truthy splitter (InString "--count 5") count_defaulted))
    as [[[a e] h]|x] eqn:E; [|vm_compute in E; discriminate E].
  eexists _, a, e, h. split; [vm_compute; reflexivity|]. split; [reflexivity|].
  split; [reflexivity|].
  eapply (proj2 (invalid_is_never_cleared z_truthy splitter (InString "--count 5")
                   count_defaulted)
            [] "count" _ [] [FromDefault] _ _ _ "count" a e h).
  - vm_compute. reflexivity.
  - reflexivity.
  - reflexivity.
  - vm_compute. reflexivity.
  - vm_compute. eauto.
  - exact E.
Defined.

Lemma empty_default_is_no_default_witness :
  default empty_default = Some ""
  /\ fst (parse z_truthy splitter (InString "") [("fruit", empty_default)])
     = fst (parse z_truthy splitter (InString "") [("fruit", without_default empty_default)])
  /\ exists report h,
      fst (parse z_truthy splitter (InString "") [("fruit", empty_default)])
      = Ok (None, Some report, h)
      /\ missing report = ["fruit"] /\ help_options h = ["--fruit <fruit>"].
Proof.
  split; [reflexivity|].
  destruct (empty_default_is_no_default z_truthy splitter (InString "") [] "fruit"
              empty_default [] eq_refl) as (_ & _ & H3 & _).
  split; [exact H3|].
  eexists _, _. split; [vm_compute; reflexivity|]. split; reflexivity.
Defined.

(** C9: on the empty input, against a parameter named [constructor] that
    is neither optional nor a flag and has the empty string as default,
    nothing binds the parameter, and yet its name is not recorded under
    [missing]: [args[key] === undefined] reads the inherited
    [constructor], and the call returns a result with no field.  The same
    parameter under the name [fruit] is recorded under [missing]. *)
Theorem inherited_name_is_not_missing :
  splitter (num := Z) [] ["c"] [] = {| pa_positional := []; pa_named := [] |}
  /\ fst (parse z_truthy splitter (InString "") constructor_option)
     = Ok (Some ∅, None,
           {| help_params := []; help_options := ["--c <constructor>"] |})
  /\ fst (parse z_truthy splitter (InString "") [("fruit", option_c)])
     = Ok (None,
           Some {| invalid := ∅; missing := ["fruit"]; unexpected := [] |},
           {| help_params := []; help_options := ["--c <fruit>"] |}).
Proof. repeat split; reflexivity. Qed.




(** ** The tests of the repository, on the reference splitter *)

Example test_arguments :
  exists h,
    fst (parse z_truthy splitter (InString "apple carrot") fruit_vegetable)
    = Ok (Some {[ "fruit" := VStr "apple"; "vegetable" := VStr "carrot" ]}, None, h).
Proof. eexists. reflexivity. Qed.

Example test_short :
  exists h,
    fst (parse z_truthy splitter (InString "-f apple -v carrot")
           [("fruit", {| long := None; short := Some "f"; type := None;
                         optional := false; default := None |});
            ("vegetable", {| long := None; short := Some "v"; type := None;
                             optional := false; default := None |})])
    = Ok (Some {[ "fruit" := VStr "apple"; "vegetable" := VStr "carrot" ]}, None, h).
Proof. eexists. reflexivity. Qed.

Example test_long :
  exists h,
    fst (parse z_truthy splitter (InString "--vegetable carrot --fruit=apple")
           [("fruit", fruit_option);
            ("vegetable", {| long := Some (LongString "vegetable"); short := None;
                             type := None; optional := false; default := None |})])
    = Ok (Some {[ "fruit" := VStr "apple"; "vegetable" := VStr "carrot" ]}, None, h).
Proof. eexists. reflexivity. Qed.

Example test_long_alias :
  exists h,
    fst (parse z_truthy splitter (InString "--veggie carrot --fruit=apple --debug")
           [("fruit", fruit_option);
            ("vegetable", {| long := Some (LongArray ["vegetable"; "veggie"; "veg"]);
                             short := None; type := None; optional := false;
                             default := None |});
            ("verbose", alias_flag)])
    = Ok (Some {[ "fruit" := VStr "apple"; "vegetable" := VStr "carrot";
                  "verbose" := VBool true ]}, None, h).
Proof. eexists. reflexivity. Qed.

Example test_flag :
  exists h,
    fst (parse z_truthy splitter (InString "-v")
           [("verbose", {| long := None; short := Some "v"; type := Some TypeBool;
                           optional := false; default := None |})])
    = Ok (Some {[ "verbose" := VBool true ]}, None, h).
Proof. eexists. reflexivity. Qed.

Example test_optional_absent :
  exists h,
    fst (parse z_truthy splitter (InString "")
           [("fruit", {| long := Some (LongString "fruit"); short := None; type := None;
                         optional := true; default := None |})])
    = Ok (Some ∅, None, h).
Proof. eexists. reflexivity. Qed.

Example test_default_present :
  exists h,
    fst (parse z_truthy splitter (InString "--fruit apple")
           [("fruit", {| long := Some (LongString "fruit"); short := None; type := None;
                         optional := false; default := Some "banana" |})])
    = Ok (Some {[ "fruit" := VStr "apple" ]}, None, h).
Proof. eexists. reflexivity. Qed.

Example test_default_absent :
  exists h,
    fst (parse z_truthy splitter (InString "")
           [("fruit", {| long := Some (LongString "fruit"); short := None; type := None;
                         optional := false; default := Some "banana" |})])
    = Ok (Some {[ "fruit" := VStr "banana" ]}, None, h).
Proof. eexists. reflexivity. Qed.

Example test_missing :
  exists report h,
    fst (parse z_truthy splitter (InString "") fruit_long) = Ok (None, Some report, h)
    /\ In "fruit" (missing report).
Proof. eexists _, _. split; [reflexivity|]. now left. Qed.

Example test_unexpected :
  exists report h,
    fst (parse z_truthy splitter (InString "--fruit apple") verbose_only)
    = Ok (None, Some report, h)
    /\ unexpected report = [VStr "fruit"].
Proof. eexists _, _. split; reflexivity. Qed.

Example test_quotes_single :
  exists h,
    fst (parse z_truthy splitter (InString "--fruit 'apple & bananas'") fruit_long)
    = Ok (Some {[ "fruit" := VStr "apple & bananas" ]}, None, h).
Proof. eexists. reflexivity. Qed.

Example test_quotes_double :
  exists h,
    fst (parse z_truthy splitter
           (InString ("--fruit "
                      +:+ Tokenizer.quoted Tokenizer.dquote
                            ("> apple" +:+ String Tokenizer.backslash "n> bananas")))
           fruit_long)
    = Ok (Some {[ "fruit" := VStr ("> apple" +:+ String "010"%char "> bananas") ]}, None, h).
Proof. eexists. reflexivity. Qed.

(** * Further properties *)

(** ** The tokenizer: words, quoting, unterminated input *)

Section TokenizerMore.
Import Tokenizer Quoting.
Local Open Scope list_scope.

Lemma append_assoc3 (a b c : string) : (a +:+ b) +:+ c = a +:+ (b +:+ c).
Proof. induction a as [|x a IH]; simpl; [reflexivity|now rewrite IH]. Qed.

Lemma append_nil_r (u : string) : u +:+ EmptyString = u.
Proof. induction u as [|x u IH]; simpl; [reflexivity|now rewrite IH]. Qed.

Lemma add_then (current : string) (c : ascii) (u : string) :
  add current c +:+ u = current +:+ String c u.
Proof. unfold add. now rewrite append_assoc3. Qed.

Lemma scan_reading_end (w current : string) (all : list string) :
  blank_free w = true ->
  scan Reading current all w = all ++ [current +:+ w].
Proof.
  revert current. induction w as [|c w IH]; intros current; simpl.
  - intros _. now rewrite append_nil_r.
  - intros [Hc Hw]%andb_prop. apply negb_true_iff in Hc. rewrite Hc.
    rewrite IH by assumption. now rewrite add_then.
Qed.

Lemma scan_reading_blank (w rest current : string) (b : ascii) (all : list string) :
  blank_free w = true -> is_blank b = true ->
  scan Reading current all (w +:+ String b rest)
  = scan Skipping (current +:+ w) all rest.
Proof.
  revert current. induction w as [|c w IH]; intros current; simpl.
  - intros _ Hb. rewrite Hb. now rewrite append_nil_r.
  - intros [Hc Hw]%andb_prop Hb. apply negb_true_iff in Hc. rewrite Hc.
    rewrite IH by assumption. now rewrite add_then.
Qed.

Lemma plain_word_inv (w : string) :
  plain_word w = true ->
  exists c u, w = String c u /\ is_blank c = false
              /\ Ascii.eqb c squote = false /\ Ascii.eqb c dquote = false
              /\ blank_free u = true.
Proof.
  destruct w as [|c u]; [discriminate|]. cbn [plain_word blank_free].
  intros [[H1 H2]%andb_prop [H3 H4]%andb_prop]%andb_prop.
  apply negb_true_iff in H1, H2, H3. exists c, u. now repeat split.
Qed.

Lemma scan_words (ws : list string) (current : string) (all : list string) :
  Forall (fun w => plain_word w = true) ws -> ws <> [] ->
  scan Skipping current all (String.concat " " ws) = all ++ current :: ws.
Proof.
  intros Hall. revert current all.
  induction Hall as [|w ws Hw Hall IH]; intros current all Hne; [contradiction|].
  apply plain_word_inv in Hw as (c & u & -> & Hb & Hs & Hd & Hu).
  destruct ws as [|w' ws'].
  - cbn [String.concat scan]. rewrite Hb, Hs, Hd.
    rewrite scan_reading_end by assumption. now rewrite <- app_assoc.
  - cbn [String.concat]. cbn [append scan]. rewrite Hb, Hs, Hd.
    change (" " +:+ String.concat " " (w' :: ws'))
      with (String space (String.concat " " (w' :: ws'))).
    rewrite scan_reading_blank by (assumption || reflexivity).
    rewrite IH by discriminate. now rewrite <- app_assoc.
Qed.

Lemma filter_nonempty_all (ws : list string) :
  Forall (fun w => nonempty w = true) ws -> List.filter nonempty ws = ws.
Proof.
  induction 1 as [|w ws Hw _ IH]; cbn [List.filter]; [reflexivity|]. now rewrite Hw, IH.
Qed.

Lemma plain_word_nonempty (w : string) : plain_word w = true -> nonempty w = true.
Proof. now destruct w. Qed.

(** X1: plain words joined by single spaces come back as the same words,
    in order; a quote character inside a word is ordinary text. *)
Theorem split_joined_words (ws : list string) :
  Forall (fun w => plain_word w = true) ws ->
  split (String.concat " " ws) = ws.
Proof.
  intros Hall. unfold split. destruct ws as [|w ws]; [reflexivity|].
  rewrite scan_words by (assumption || discriminate).
  change (List.filter nonempty ([] ++ "" :: w :: ws))
    with (List.filter nonempty (w :: ws)).
  apply filter_nonempty_all. eapply Forall_impl; [exact Hall|].
  apply plain_word_nonempty.
Qed.

Lemma scan_escaped (t rest current : string) (all : list string) :
  scan Double current all (escaped t +:+ String dquote rest)
  = scan Skipping (current +:+ t) all rest.
Proof.
  revert current. induction t as [|c t IH]; intros current.
  - cbn. now rewrite append_nil_r.
  - cbn [escaped].
    destruct (Ascii.eqb c dquote) eqn:Ed; [|destruct (Ascii.eqb c backslash) eqn:Eb];
      cbn [orb append scan].
    + apply Ascii.eqb_eq in Ed as ->.
      change (Ascii.eqb backslash dquote) with false.
      change (Ascii.eqb backslash backslash) with true.
      change (escape dquote) with dquote. cbn iota.
      rewrite IH. now rewrite add_then.
    + apply Ascii.eqb_eq in Eb as ->.
      change (Ascii.eqb backslash dquote) with false.
      change (Ascii.eqb backslash backslash) with true.
      change (escape backslash) with backslash. cbn iota.
      rewrite IH. now rewrite add_then.
    + rewrite Ed, Eb. rewrite IH. now rewrite add_then.
Qed.

Lemma scan_protect (t rest current : string) (all : list string) :
  scan Skipping current all (protect t +:+ rest)
  = scan Skipping t (all ++ [current]) rest.
Proof.
  unfold protect, quoted. cbn [append].
  rewrite append_assoc3. cbn [append].
  change (scan Skipping current all (String dquote (escaped t +:+ String dquote rest)))
    with (scan Double EmptyString (all ++ [current]) (escaped t +:+ String dquote rest)).
  now rewrite scan_escaped.
Qed.

Lemma scan_command (ts : list string) (current : string) (all : list string) :
  ts <> [] ->
  scan Skipping current all (command ts) = all ++ current :: ts.
Proof.
  unfold command. revert current all.
  induction ts as [|t ts IH]; intros current all Hne; [contradiction|].
  destruct ts as [|t' ts'].
  - cbn [map String.concat]. rewrite <- (append_nil_r (protect t)).
    rewrite scan_protect. cbn [scan]. now rewrite <- app_assoc.
  - change (String.concat " " (map protect (t :: t' :: ts')))
      with (protect t +:+ String space (String.concat " " (map protect (t' :: ts')))).
    rewrite scan_protect.
    cbn [scan]. change (is_blank space) with true. cbn iota.
    rewrite IH by discriminate. now rewrite <- app_assoc.
Qed.

(** X2: any list of non-empty strings can be written as one command line:
    each string between double quotes, with a backslash before every
    double quote and backslash in it, the pieces separated by a space;
    the tokenizer gives the strings back. *)
Theorem split_command (ts : list string) :
  Forall (fun t => nonempty t = true) ts ->
  split (command ts) = ts.
Proof.
  intros Hall. unfold split. destruct ts as [|t ts]; [reflexivity|].
  rewrite scan_command by discriminate.
  change (List.filter nonempty ([] ++ "" :: t :: ts))
    with (List.filter nonempty (t :: ts)).
  now apply filter_nonempty_all.
Qed.

Lemma scan_single_end (u current : string) (all : list string) :
  occurs squote u = false ->
  scan Single current all u = all ++ [current +:+ u].
Proof.
  revert current. induction u as [|c u IH]; intros current; simpl.
  - intros _. now rewrite append_nil_r.
  - intros [Hc Hu]%orb_false_elim. rewrite Hc.
    rewrite IH by assumption. now rewrite add_then.
Qed.

Lemma scan_double_end (v current : string) (all : list string) :
  occurs dquote v = false -> occurs backslash v = false ->
  scan Double current all v = all ++ [current +:+ v].
Proof.
  revert current. induction v as [|c v IH]; intros current; simpl.
  - intros _ _. now rewrite append_nil_r.
  - intros [Hc Hv]%orb_false_elim [Hc' Hv']%orb_false_elim. rewrite Hc, Hc'.
    rewrite IH by assumption. now rewrite add_then.
Qed.

Lemma scan_double_dangling (v current : string) (all : list string) :
  occurs dquote v = false -> occurs backslash v = false ->
  scan Double current all (v +:+ String backslash EmptyString)
  = all ++ [(current +:+ v) +:+ "undefined"].
Proof.
  revert current. induction v as [|c v IH]; intros current; simpl.
  - intros _ _. now rewrite append_nil_r.
  - intros [Hc Hv]%orb_false_elim [Hc' Hv']%orb_false_elim. rewrite Hc, Hc'.
    rewrite IH by assumption. now rewrite add_then.
Qed.

(** X3: between single quotes everything up to the next single quote is
    one token, kept as it is (spaces, double quotes and backslashes
    included); a missing closing quote is closed by the end of the
    input. *)
Theorem single_quoted_verbatim (u : string) :
  occurs squote u = false ->
  split (quoted squote u) = List.filter nonempty [u]
  /\ split (String squote u) = List.filter nonempty [u].
Proof.
  intros Hu. unfold split, quoted. split.
  - change (scan Skipping "" [] (String squote (u +:+ String squote "")))
      with (scan Single "" [""] (u +:+ String squote "")).
    now rewrite scan_single.
  - change (scan Skipping "" [] (String squote u)) with (scan Single "" [""] u).
    now rewrite scan_single_end.
Qed.

(** X4: between double quotes a body with no backslash is one token, also
    when the closing quote is missing; when the input ends on a backslash
    inside double quotes the token ends with the text "undefined". *)
Theorem double_quoted_unterminated (v : string) :
  occurs dquote v = false -> occurs backslash v = false ->
  split (quoted dquote v) = List.filter nonempty [v]
  /\ split (String dquote v) = List.filter nonempty [v]
  /\ split (String dquote (v +:+ String backslash EmptyString))
     = [v +:+ "undefined"].
Proof.
  intros Hv Hv'. unfold split, quoted. split; [|split].
  - change (scan Skipping "" [] (String dquote (v +:+ String dquote "")))
      with (scan Double "" [""] (v +:+ String dquote "")).
    now rewrite scan_double.
  - change (scan Skipping "" [] (String dquote v)) with (scan Double "" [""] v).
    now rewrite scan_double_end.
  - change (scan Skipping "" [] (String dquote (v +:+ String backslash "")))
      with (scan Double "" [""] (v +:+ String backslash "")).
    rewrite scan_double_dangling by assumption.
    cbn [app List.filter nonempty String.length Nat.ltb Nat.leb append].
    destruct v; reflexivity.
Qed.

End TokenizerMore.

Lemma split_joined_words_witness :
  Tokenizer.split "it's --a=b c" = ["it's"; "--a=b"; "c"].
Proof.
  apply (split_joined_words ["it's"; "--a=b"; "c"]).
  repeat constructor.
Defined.

Lemma split_command_witness :
  Tokenizer.split (Quoting.command ["a b"; String Tokenizer.dquote "q"; "'"])
  = ["a b"; String Tokenizer.dquote "q"; "'"].
Proof.
  apply (split_command ["a b"; String Tokenizer.dquote "q"; "'"]).
  repeat constructor.
Defined.

Lemma single_quoted_verbatim_witness :
  Tokenizer.split (String Tokenizer.squote "a  b")  = ["a  b"].
Proof. exact (proj2 (single_quoted_verbatim "a  b" eq_refl)). Defined.

Lemma double_quoted_unterminated_witness :
  Tokenizer.split (String Tokenizer.dquote ("a" +:+ String Tokenizer.backslash EmptyString))
  = ["aundefined"].
Proof. exact (proj2 (proj2 (double_quoted_unterminated "a" eq_refl eq_refl))). Defined.

(** ** The schema as a whole *)

Section ResolverMore.

Context {num : Type} (num_truthy : num -> bool).
Context (minimist : list string -> list string -> list string -> ParsedArgs num).

Implicit Types (key k : string) (param p : Param num) (st : Env num)
  (r : Raw num) (params : Params num).

Local Open Scope list_scope.

(** *** The first loop, in closed form *)

Lemma normalise_fields p :
  short (normalise p) = short p /\ type (normalise p) = type p
  /\ optional (normalise p) = optional p /\ default (normalise p) = default p
  /\ long_truthy (long (normalise p)) = long_truthy (long p).
Proof.
  unfold normalise.
  destruct (long p) as [[a|l]|] eqn:E; [destruct (str_truthy a) eqn:Ea| |]; cbn;
    rewrite ?E; cbn; rewrite ?Ea; repeat split; reflexivity.
Qed.

Lemma is_bool_normalise p : is_bool (normalise p) = is_bool p.
Proof. unfold is_bool. now destruct (normalise_fields p) as (_ & -> & _). Qed.

Lemma positional_normalise p : positional (normalise p) = positional p.
Proof.
  unfold positional. destruct (normalise_fields p) as (-> & _ & _ & _ & ->). reflexivity.
Qed.

Lemma declare_fst key param d :
  fst (declare key param d)
  = {| options := options d ++ (if is_bool param then [] else aliases param);
       flags := flags d ++ (if is_bool param then aliases param else []);
       helpParams := helpParams d
                     ++ (if positional param then [help_line (key, param)] else []);
       helpOptions := helpOptions d
                      ++ (if positional param then [] else [help_line (key, param)]) |}.
Proof.
  unfold declare. cbn [fst]. rewrite is_bool_normalise.
  replace (opt_truthy (short (normalise param)) || long_truthy (long (normalise param)))
    with (negb (positional param)).
  2:{ rewrite <- positional_normalise. unfold positional.
      rewrite <- negb_orb. now rewrite negb_involutive. }
  unfold aliases, help_line. cbn [fst snd].
  destruct (is_bool param), (positional param); cbn [negb]; now rewrite !app_nil_r.
Qed.

Lemma declare_all_cons key param rest d :
  fst (declare_all ((key, param) :: rest) d)
  = fst (declare_all rest (fst (declare key param d))).
Proof.
  cbn [declare_all]. destruct (declare key param d) as [d1 p1]. cbn [fst].
  now destruct (declare_all rest d1).
Qed.

Lemma declare_all_closed params d :
  fst (declare_all params d)
  = {| options := options d
                  ++ flat_map (fun kp => aliases (snd kp))
                       (List.filter (fun kp => negb (is_flag kp)) params);
       flags := flags d
                ++ flat_map (fun kp => aliases (snd kp)) (List.filter is_flag params);
       helpParams := helpParams d ++ map help_line (List.filter is_positional params);
       helpOptions := helpOptions d
                      ++ map help_line
                           (List.filter (fun kp => negb (is_positional kp)) params) |}.
Proof.
  revert d. induction params as [|[key param] rest IH]; intros d.
  - cbn. rewrite !app_nil_r. now destruct d.
  - rewrite declare_all_cons, IH, declare_fst.
    cbn [options flags helpParams helpOptions List.filter].
    change (is_flag (key, param)) with (is_bool param).
    change (is_positional (key, param)) with (positional param).
    destruct (is_bool param), (positional param);
      cbn [negb flat_map map snd]; rewrite <- ?app_assoc; reflexivity.
Qed.

Lemma help_of_closed params :
  help_of params
  = {| help_params := map help_line (List.filter is_positional params);
       help_options := map help_line
                         (List.filter (fun kp => negb (is_positional kp)) params) |}.
Proof. unfold help_of. now rewrite declare_all_closed. Qed.

(** X5: whenever [parse] returns, with a result or with an error report,
    the help descriptor is the same and does not depend on the input: one
    line per parameter in schema order, under [params] for a parameter
    with neither short nor long alias and under [options] for the
    others. *)
Theorem help_is_per_parameter (s : Input) params a e h :
  fst (parse num_truthy minimist s params) = Ok (a, e, h) ->
  h = {| help_params := map help_line (List.filter is_positional params);
         help_options := map help_line
                           (List.filter (fun kp => negb (is_positional kp)) params) |}.
Proof.
  rewrite parse_unfold.
  destruct (resolved _ _ _ _) as [st|x]; [|discriminate]. cbn [bind].
  destruct (leftovers st) as [st'|x]; [|discriminate]. cbn [bind].
  rewrite help_of_closed. unfold conclude.
  destruct (_ || _); intros [= _ _ <-]; reflexivity.
Qed.

(** X6: the splitter is called once, on the tokens of the input, with the
    aliases of the parameters that are not flags as string options and
    the aliases of the flags as boolean switches, each in schema order;
    the second loop starts from what it returns, with no field and no
    error yet. *)
Theorem splitter_sees_every_alias (s : Input) params :
  split_args minimist s params
  = minimist (tokens s)
      (flat_map (fun kp => aliases (snd kp))
         (List.filter (fun kp => negb (is_flag kp)) params))
      (flat_map (fun kp => aliases (snd kp)) (List.filter is_flag params))
  /\ begin minimist s params = start (split_args minimist s params).
Proof.
  split; [|reflexivity]. unfold split_args. now rewrite declare_all_closed.
Qed.

(** *** What one source does to the state *)

(** Every way in which a source can have returned. *)
Ltac consult_cases H :=
  match type of H with
  | consult _ _ ?param ?src ?st = Ok _ =>
      destruct src as [| |?a|]; cbn [consult] in H;
      [ unfold from_default in H;
        destruct (default param) as [?d|]; [destruct (str_truthy _) eqn:?Hd|]
      | unfold from_short in H;
        destruct (short param) as [?s|] eqn:?Hshort;
        [destruct (str_truthy _) eqn:?Hs; cbn [andb] in H;
         [destruct (raw_in _ (raw st)) eqn:?Hin|]|]
      | unfold from_alias in H; destruct (raw_in _ (raw st)) eqn:?Hin
      | unfold from_positional in H; fold (positional param) in H;
        destruct (positional param) eqn:?Hpos;
        [destruct (underscore (raw st)) as [[|?tok ?rest]|] eqn:?Hu|] ];
      try (destruct (parser _ _ _) as [[?val|?err]|?x] eqn:?Hparser; cbn [bind] in H);
      try discriminate H;
      injection H as <-
  end.

Lemma parser_error_typed param v err :
  parser num_truthy param v = Ok (inr err) -> exists f, type param = Some (TypeParser f).
Proof.
  unfold parser. destruct (type param) as [[|f]|]; try discriminate. eauto.
Qed.

Lemma parser_flag param v val :
  is_bool param = true -> parser num_truthy param v = Ok (inl val) ->
  val = VBool (truthy num_truthy v).
Proof.
  unfold is_bool, parser. destruct (type param) as [[|f]|]; try discriminate.
  now intros _ [= <-].
Qed.

Lemma or_assign_other key k val st :
  k <> key -> args (or_assign num_truthy key val st) !! k = args st !! k.
Proof.
  intros Hne. unfold or_assign.
  destruct (field key st) as [old|]; [destruct (truthy _ old)|]; cbn;
    rewrite ?lookup_insert_ne; congruence.
Qed.

(** A source writes to the field of its own parameter only. *)
Lemma consult_args_other key param src st st' k :
  consult num_truthy key param src st = Ok st' -> k <> key ->
  args st' !! k = args st !! k.
Proof.
  intros H Hne. consult_cases H; try reflexivity;
    try (destruct (is_bool param)); cbn;
    rewrite ?or_assign_other, ?lookup_insert_ne by congruence; reflexivity.
Qed.

Lemma consult_missing key param src st st' :
  consult num_truthy key param src st = Ok st' ->
  missing (errors st') = missing (errors st).
Proof.
  intros H. consult_cases H; try reflexivity.
  destruct (is_bool param); [|reflexivity].
  unfold or_assign.
  now destruct (field key _) as [old|]; [destruct (truthy num_truthy old)|].
Qed.

Lemma consult_invalid key param src st st' k :
  consult num_truthy key param src st = Ok st' ->
  is_Some (invalid (errors st') !! k) ->
  is_Some (invalid (errors st) !! k)
  \/ (k = key /\ exists f, type param = Some (TypeParser f)).
Proof.
  intros H Hk. consult_cases H; try (now left);
    try solve [cbn in Hk; apply lookup_insert_is_Some' in Hk as [<-|Hk]; [right|now left];
               split; [reflexivity|]; eapply parser_error_typed; eassumption].
  destruct (is_bool param); [|now left].
  left. revert Hk. unfold or_assign.
  now destruct (field key _) as [old|]; [destruct (truthy num_truthy old)|].
Qed.

Lemma consult_flaglike key param src st st' :
  consult num_truthy key param src st = Ok st' -> inherited key = false ->
  is_bool param = true -> flaglike (args st !! key) -> flaglike (args st' !! key).
Proof.
  intros H Hk Hb Hf. consult_cases H; try exact Hf;
    try solve [apply parser_error_typed in Hparser as [f Hf']; unfold is_bool in Hb;
               rewrite Hf' in Hb; discriminate Hb];
    try solve [apply (parser_flag _ _ _ Hb) in Hparser as ->; cbn;
               rewrite lookup_insert_eq; right; eauto].
  rewrite Hb. apply (parser_flag _ _ _ Hb) in Hparser as ->.
  unfold or_assign. rewrite field_own by assumption. cbn [args set_raw].
  destruct (args st !! key) as [old|] eqn:Eo; [destruct (truthy _ old)|]; cbn;
    rewrite ?lookup_insert_eq, ?Eo; try exact Hf; right; eauto.
Qed.

Lemma consult_all_inv (P : Env num -> Env num -> Prop) key param srcs st st' :
  (forall st, P st st) ->
  (forall st1 st2 st3, P st1 st2 -> P st2 st3 -> P st1 st3) ->
  (forall src st1 st2, consult num_truthy key param src st1 = Ok st2 -> P st1 st2) ->
  consult_all num_truthy key param srcs st = Ok st' -> P st st'.
Proof.
  intros Hrefl Htrans Hstep. revert st.
  induction srcs as [|src srcs IH]; intros st; cbn [consult_all].
  - intros [= <-]. apply Hrefl.
  - destruct (consult _ _ _ _ _) as [st1|x] eqn:E; [|discriminate]. cbn [bind].
    intros H. eapply Htrans; [eapply Hstep; eassumption|now apply IH].
Qed.

Lemma resolve_args_other key param st st' k :
  resolve num_truthy key param st = Ok st' -> k <> key ->
  args st' !! k = args st !! k.
Proof.
  rewrite resolve_as_sources.
  destruct (consult_all _ _ _ _ _) as [st1|x] eqn:E; [|discriminate]. intros [= <-] Hne.
  rewrite lookup_or_missing_ne by assumption.
  apply (consult_all_inv (fun s1 s2 => args s2 !! k = args s1 !! k) key param (sources param));
    [reflexivity|congruence| |exact E].
  intros src st1' st2' H. now apply (consult_args_other key param src).
Qed.

Lemma resolve_invalid key param st st' k :
  resolve num_truthy key param st = Ok st' ->
  is_Some (invalid (errors st') !! k) ->
  is_Some (invalid (errors st) !! k)
  \/ (k = key /\ exists f, type param = Some (TypeParser f)).
Proof.
  rewrite resolve_as_sources.
  destruct (consult_all _ _ _ _ _) as [st1|x] eqn:E; [|discriminate]. intros [= <-] Hk.
  assert (Hk1 : is_Some (invalid (errors st1) !! k)).
  { revert Hk. unfold or_missing.
    destruct (field key st1) as [[]|]; destruct (is_bool param); destruct (optional param);
      cbn; auto. }
  revert Hk1.
  apply (consult_all_inv
           (fun s1 s2 => is_Some (invalid (errors s2) !! k) ->
                         is_Some (invalid (errors s1) !! k)
                         \/ (k = key /\ exists f, type param = Some (TypeParser f)))
           key param (sources param)); [now left| | |exact E].
  - intros s1 s2 s3 H12 H23 H3. destruct (H23 H3) as [H2|H2]; [now apply H12|now right].
  - intros src s1 s2 H. now apply (consult_invalid key param src).
Qed.

(** What the last step of an iteration adds to [missing]. *)
Lemma resolve_missing key param st st' :
  resolve num_truthy key param st = Ok st' ->
  missing (errors st') = missing (errors st)
  \/ (missing (errors st') = missing (errors st) ++ [key]
      /\ is_bool param = false /\ optional param = false).
Proof.
  rewrite resolve_as_sources.
  destruct (consult_all _ _ _ _ _) as [st1|x] eqn:E; [|discriminate]. intros [= <-].
  assert (H1 : missing (errors st1) = missing (errors st)).
  { apply (consult_all_inv (fun s1 s2 => missing (errors s2) = missing (errors s1))
             key param (sources param)); [reflexivity|congruence| |exact E].
    intros src s1 s2 H. now apply (consult_missing key param src). }
  unfold or_missing.
  destruct (field key st1) as [[]|]; destruct (is_bool param); destruct (optional param);
    cbn; rewrite ?H1; auto.
Qed.

(** What an iteration leaves in the field of its parameter. *)
Lemma resolve_field key param st st' :
  resolve num_truthy key param st = Ok st' -> inherited key = false ->
  (is_bool param = true -> flaglike (args st !! key) ->
   exists b, args st' !! key = Some (VBool b))
  /\ (is_bool param = false -> optional param = false ->
      defined (args st' !! key) \/ In key (missing (errors st'))).
Proof.
  rewrite resolve_as_sources.
  destruct (consult_all _ _ _ _ _) as [st1|x] eqn:E; [|discriminate]. intros [= <-] Hk.
  unfold or_missing. rewrite (field_own key st1 Hk). split.
  - intros Hb Hf.
    assert (Hf1 : flaglike (args st1 !! key)).
    { revert Hf.
      apply (consult_all_inv
               (fun s1 s2 => flaglike (args s1 !! key) -> flaglike (args s2 !! key))
               key param (sources param)); [auto|auto| |exact E].
      intros src s1 s2 H. now apply (consult_flaglike key param src). }
    rewrite Hb.
    destruct Hf1 as [Hn|[b Hv]].
    + rewrite Hn. cbn. rewrite lookup_insert_eq. eauto.
    + rewrite Hv. eauto.
  - intros Hb Ho. rewrite Hb, Ho.
    destruct (args st1 !! key) as [v|] eqn:Ev.
    + destruct v;
        try solve [left; eexists; split; [exact Ev|discriminate]].
      right. cbn. apply in_or_app. right. now left.
    + right. cbn. apply in_or_app. right. now left.
Qed.

(** *** All iterations of the second loop *)

Lemma resolve_all_args_other params st st' k :
  resolve_all num_truthy params st = Ok st' -> ~ In k (map fst params) ->
  args st' !! k = args st !! k.
Proof.
  revert st. induction params as [|[key param] rest IH]; intros st; cbn [resolve_all].
  - now intros [= <-].
  - destruct (resolve _ _ _ _) as [st1|x] eqn:E; [|discriminate]. cbn [bind map fst].
    intros H Hk. rewrite (IH st1 H) by (intros ?; apply Hk; now right).
    apply (resolve_args_other key param st st1 k E). intros ->. apply Hk. now left.
Qed.

Lemma resolve_all_invalid params st st' k :
  resolve_all num_truthy params st = Ok st' ->
  is_Some (invalid (errors st') !! k) ->
  is_Some (invalid (errors st) !! k)
  \/ exists param f, In (k, param) params /\ type param = Some (TypeParser f).
Proof.
  revert st. induction params as [|[key param] rest IH]; intros st; cbn [resolve_all].
  - intros [= <-]. now left.
  - destruct (resolve _ _ _ _) as [st1|x] eqn:E; [|discriminate]. cbn [bind].
    intros H Hk. destruct (IH st1 H Hk) as [H1|(p & f & Hin & Hf)].
    + destruct (resolve_invalid key param st st1 k E H1) as [H0|[-> [f Hf]]]; [now left|].
      right. exists param, f. split; [now left|exact Hf].
    + right. exists p, f. split; [now right|exact Hf].
Qed.

Lemma resolve_all_missing params st st' :
  resolve_all num_truthy params st = Ok st' ->
  exists l, missing (errors st') = missing (errors st) ++ l
            /\ sublist l (map fst (List.filter required params)).
Proof.
  revert st. induction params as [|[key param] rest IH]; intros st; cbn [resolve_all].
  - intros [= <-]. exists []. rewrite app_nil_r. split; [reflexivity|constructor].
  - destruct (resolve _ _ _ _) as [st1|x] eqn:E; [|discriminate]. cbn [bind].
    intros H. destruct (IH st1 H) as (l & Hl & Hsub).
    cbn [List.filter]. unfold required at 1. cbn [snd].
    destruct (resolve_missing key param st st1 E) as [H1|(H1 & Hb & Ho)].
    + exists l. rewrite Hl, H1. split; [reflexivity|].
      destruct (_ && _); [now apply sublist_cons|exact Hsub].
    + exists (key :: l). rewrite Hl, H1, <- app_assoc. split; [reflexivity|].
      rewrite Hb, Ho. cbn. now apply sublist_skip.
Qed.

Lemma resolve_all_fields params st st' :
  resolve_all num_truthy params st = Ok st' ->
  NoDup (map fst params) ->
  (forall k, In k (map fst params) -> args st !! k = None) ->
  forall key param,
    In (key, param) params -> inherited key = false ->
    (is_bool param = true -> exists b, args st' !! key = Some (VBool b))
    /\ (is_bool param = false -> optional param = false ->
        defined (args st' !! key) \/ In key (missing (errors st'))).
Proof.
  revert st. induction params as [|[key0 param0] rest IH]; intros st; cbn [resolve_all].
  - intros _ _ _ key param [].
  - destruct (resolve _ _ _ _) as [st1|x] eqn:E; [|discriminate]. cbn [bind map fst].
    intros H Hnd Hfresh key param Hin Hown.
    apply NoDup_cons in Hnd as [Hk0 Hnd]. rewrite list_elem_of_In in Hk0.
    destruct Hin as [[= <- <-]|Hin].
    + destruct (resolve_field key0 param0 st st1 E Hown) as [Hflag Hreq].
      rewrite (resolve_all_args_other rest st1 st' key0 H Hk0).
      split; [intros Hb; apply Hflag; [exact Hb|]; left; apply Hfresh; now left|].
      intros Hb Ho. destruct (Hreq Hb Ho) as [Hd|Hm]; [now left|right].
      destruct (resolve_all_missing rest st1 st' H) as (l & -> & _).
      apply in_or_app. now left.
    + apply (IH st1 H Hnd); [|exact Hin|exact Hown].
      intros k Hk. rewrite (resolve_args_other key0 param0 st st1 k E).
      * apply Hfresh. now right.
      * intros ->. contradiction.
Qed.

(** *** From the normalised schema back to the schema *)

Lemma normalised_keys params :
  map fst (map (fun kp => (fst kp, normalise (snd kp))) params) = map fst params.
Proof. rewrite map_map. now apply map_ext. Qed.

Lemma normalised_in params key param' :
  In (key, param') (map (fun kp => (fst kp, normalise (snd kp))) params) ->
  exists param, In (key, param) params /\ param' = normalise param.
Proof.
  intros ([k p] & [= <- <-] & Hin)%in_map_iff. eauto.
Qed.

Lemma normalised_required params :
  map fst (List.filter required (map (fun kp => (fst kp, normalise (snd kp))) params))
  = map fst (List.filter required params).
Proof.
  induction params as [|[key param] rest IH]; [reflexivity|].
  cbn [map List.filter fst snd].
  change (required (key, normalise param))
    with (negb (is_bool (normalise param)) && negb (optional (normalise param))).
  change (required (key, param)) with (negb (is_bool param) && negb (optional param)).
  rewrite is_bool_normalise.
  destruct (normalise_fields param) as (_ & _ & -> & _).
  destruct (_ && _); cbn [map fst]; now rewrite IH.
Qed.

Lemma resolved_normalised s params :
  resolved num_truthy minimist s params
  = resolve_all num_truthy (map (fun kp => (fst kp, normalise (snd kp))) params)
      (begin minimist s params).
Proof. unfold resolved. now rewrite declare_all_schema. Qed.

(** What a returned outcome says about the state in which the second loop
    ended. *)
Lemma parse_returned s params a e h :
  fst (parse num_truthy minimist s params) = Ok (a, e, h) ->
  exists stf,
    resolved num_truthy minimist s params = Ok stf
    /\ (forall result, a = Some result ->
        result = args stf /\ missing (errors stf) = [] /\ invalid (errors stf) = ∅)
    /\ (forall report, e = Some report ->
        invalid report = invalid (errors stf) /\ missing report = missing (errors stf)).
Proof.
  intros Hp.
  destruct (resolved num_truthy minimist s params) as [stf|x] eqn:Hres.
  2:{ rewrite parse_unfold, Hres in Hp. discriminate Hp. }
  exists stf. split; [reflexivity|].
  destruct (parse_reports num_truthy minimist s params stf a e h Hres Hp)
    as (rest & st' & _ & Hc & Ha & Hi & Hm & _).
  apply conclude_either_or in Hc as [(-> & -> & Hinv & Hmis & _)|(-> & -> & _)].
  - split; [|discriminate]. intros result [= <-]. now rewrite <- Ha, <- Hm, <- Hi.
  - split; [discriminate|]. intros report [= <-]. now split.
Qed.

(** X7: in a result, every flag of the schema whose name is not one that
    every object inherits has a boolean field, and every such parameter
    that is neither a flag nor optional has a field that is not
    [undefined]. *)
Theorem result_is_complete (s : Input) params result e h key param :
  NoDup (map fst params) ->
  fst (parse num_truthy minimist s params) = Ok (Some result, e, h) ->
  In (key, param) params ->
  inherited key = false ->
  (is_bool param = true -> exists b, result !! key = Some (VBool b))
  /\ (is_bool param = false -> optional param = false -> defined (result !! key)).
Proof.
  intros Hnd Hp Hin Hown.
  destruct (parse_returned s params _ _ _ Hp) as (stf & Hres & Ha & _).
  destruct (Ha result eq_refl) as (-> & Hmis & _).
  rewrite resolved_normalised in Hres.
  destruct (resolve_all_fields _ _ _ Hres) with (key := key) (param := normalise param)
    as [Hflag Hreq].
  - now rewrite normalised_keys.
  - intros k _. apply lookup_empty.
  - apply in_map_iff. exists (key, param). now split.
  - exact Hown.
  - rewrite is_bool_normalise in Hflag, Hreq.
    destruct (normalise_fields param) as (_ & _ & Ho & _). rewrite Ho in Hreq.
    split; [exact Hflag|]. intros Hb Hopt.
    destruct (Hreq Hb Hopt) as [Hd|Hm]; [exact Hd|]. rewrite Hmis in Hm. destruct Hm.
Qed.

(** X8: the names under [missing] are names of parameters that are neither
    flags nor optional, each at most once and in schema order. *)
Theorem missing_is_required (s : Input) params a report h :
  fst (parse num_truthy minimist s params) = Ok (a, Some report, h) ->
  sublist (missing report) (map fst (List.filter required params)).
Proof.
  intros Hp.
  destruct (parse_returned s params _ _ _ Hp) as (stf & Hres & _ & He).
  destruct (He report eq_refl) as (_ & ->).
  rewrite resolved_normalised in Hres.
  destruct (resolve_all_missing _ _ _ Hres) as (l & -> & Hsub).
  now rewrite normalised_required in Hsub.
Qed.

(** X9: a name is recorded under [invalid] only for a parameter of the
    schema that has a coercion of its own; a flag or a parameter without
    [type] is never invalid. *)
Theorem invalid_is_typed (s : Input) params a report h k :
  fst (parse num_truthy minimist s params) = Ok (a, Some report, h) ->
  is_Some (invalid report !! k) ->
  exists param f, In (k, param) params /\ type param = Some (TypeParser f).
Proof.
  intros Hp Hk.
  destruct (parse_returned s params _ _ _ Hp) as (stf & Hres & _ & He).
  destruct (He report eq_refl) as (Hi & _). rewrite Hi in Hk.
  rewrite resolved_normalised in Hres.
  destruct (resolve_all_invalid _ _ _ k Hres Hk) as [H0|(p' & f & Hin & Hf)].
  - cbn in H0. rewrite lookup_empty in H0. now destruct H0.
  - apply normalised_in in Hin as (param & Hin & ->).
    exists param, f. split; [exact Hin|].
    now destruct (normalise_fields param) as (_ & <- & _).
Qed.

(** X10: a result has fields for parameters of the schema only. *)
Theorem result_has_declared_fields (s : Input) params result e h k :
  fst (parse num_truthy minimist s params) = Ok (Some result, e, h) ->
  is_Some (result !! k) -> In k (map fst params).
Proof.
  intros Hp Hk.
  destruct (parse_returned s params _ _ _ Hp) as (stf & Hres & Ha & _).
  destruct (Ha result eq_refl) as (-> & _).
  rewrite resolved_normalised in Hres.
  destruct (in_dec string_dec k (map fst params)) as [Hin|Hnin]; [exact Hin|].
  rewrite (resolve_all_args_other _ _ _ k Hres) in Hk by now rewrite normalised_keys.
  cbn in Hk. rewrite lookup_empty in Hk. now destruct Hk.
Qed.

(** *** What is left in the raw object *)

Lemma strike_nil r : strike [] r = r.
Proof.
  destruct r as [u l]. unfold strike. cbn. f_equal.
  induction l as [|kv l IH]; cbn; [reflexivity|now rewrite IH].
Qed.

Lemma filter_twice {A} (f g : A -> bool) (l : list A) :
  List.filter g (List.filter f l) = List.filter (fun x => f x && g x) l.
Proof.
  induction l as [|x l IH]; cbn; [reflexivity|].
  destruct (f x); cbn; [destruct (g x)|]; now rewrite IH.
Qed.

Lemma strike_app xs ys r : strike ys (strike xs r) = strike (xs ++ ys) r.
Proof.
  unfold strike. cbn. f_equal. rewrite filter_twice. apply filter_ext.
  intros kv. now rewrite existsb_app, negb_orb.
Qed.

Lemma raw_delete_strike a r : a <> reserved -> raw_delete a r = strike [a] r.
Proof.
  intros Ha. unfold raw_delete, strike. apply String.eqb_neq in Ha. rewrite Ha.
  f_equal. apply filter_ext. intros kv. cbn. now rewrite orb_false_r.
Qed.

Lemma strike_absent a r : a <> reserved -> raw_in a r = false -> strike [a] r = r.
Proof.
  intros Ha. unfold raw_in, strike. apply String.eqb_neq in Ha. rewrite Ha.
  destruct r as [u l]. cbn. intros [Hin _]%orb_false_elim. f_equal.
  induction l as [|kv l IH]; cbn in *; [reflexivity|].
  apply orb_false_elim in Hin as [H1 H2]. rewrite H1. cbn. now rewrite IH.
Qed.

Lemma shift_empty r : underscore r = Some [] -> shift r = r.
Proof. destruct r as [u l]. cbn. intros ->. reflexivity. Qed.

Lemma from_short_raw key param st st' :
  ~ In reserved (short_names param) ->
  from_short num_truthy key param st = Ok st' ->
  raw st' = strike (short_names param) (raw st).
Proof.
  unfold from_short, short_names, opt_truthy. intros Hres.
  destruct (short param) as [a|]; [|intros [= <-]; now rewrite strike_nil].
  destruct (str_truthy a); cbn [andb]; [|intros [= <-]; now rewrite strike_nil].
  assert (Ha : a <> reserved) by (intros ->; apply Hres; now left).
  destruct (raw_in a (raw st)) eqn:Hin.
  - destruct (parser _ _ _) as [res|x]; [|discriminate]. intros [= <-].
    rewrite raw_store. cbn. now apply raw_delete_strike.
  - intros [= <-]. now rewrite strike_absent.
Qed.

Lemma from_aliases_raw key param ps st st' :
  ~ In reserved ps ->
  from_aliases num_truthy key param ps st = Ok st' ->
  raw st' = strike ps (raw st).
Proof.
  revert st. induction ps as [|a ps IH]; intros st Hres; cbn [from_aliases].
  - intros [= <-]. now rewrite strike_nil.
  - assert (Ha : a <> reserved) by (intros ->; apply Hres; now left).
    assert (Hps : ~ In reserved ps) by (intros ?; apply Hres; now right).
    destruct (from_alias _ _ _ _ _) as [st1|x] eqn:E; [|discriminate]. cbn [bind].
    intros H. rewrite (IH st1 Hps H). change (a :: ps) with ([a] ++ ps).
    rewrite <- strike_app. f_equal.
    unfold from_alias in E. destruct (raw_in a (raw st)) eqn:Hin.
    + destruct (parser _ _ _) as [[val|err]|x]; [| |discriminate]; injection E as <-;
        [destruct (is_bool param)|]; rewrite ?raw_or_assign; cbn;
        now apply raw_delete_strike.
    + injection E as <-. now rewrite strike_absent.
Qed.

Lemma from_default_raw key param st st' :
  from_default num_truthy key param st = Ok st' -> raw st' = raw st.
Proof.
  unfold from_default. destruct (default param) as [d|]; [destruct (str_truthy d)|];
    try (now intros [= <-]).
  destruct (parser _ _ _) as [res|x]; [|discriminate]. intros [= <-]. apply raw_store.
Qed.

(** The raw object after one iteration: a pure positional takes the head
    of the positional list, any other parameter takes its aliases out. *)
Lemma resolve_raw key param st st' :
  ~ In reserved (names param) ->
  resolve num_truthy key param st = Ok st' ->
  raw st' = if positional param then shift (raw st) else strike (names param) (raw st).
Proof.
  intros Hres. unfold resolve.
  destruct (from_default _ _ _ _) as [st1|x] eqn:E1; [|discriminate]. cbn [bind].
  destruct (from_short _ _ _ _) as [st2|x] eqn:E2; [|discriminate]. cbn [bind].
  rewrite from_long_names.
  destruct (from_aliases _ _ _ _ _) as [st3|x] eqn:E3; [|discriminate]. cbn [bind].
  destruct (from_positional _ _ _ _) as [st4|x] eqn:E4; [|discriminate]. cbn [bind].
  intros [= <-]. rewrite raw_or_missing.
  rewrite names_split in Hres.
  apply from_default_raw in E1.
  apply from_short_raw in E2; [|intros ?; apply Hres, in_or_app; now left].
  apply from_aliases_raw in E3; [|intros ?; apply Hres, in_or_app; now right].
  assert (H3 : raw st3 = strike (names param) (raw st)).
  { rewrite E3, E2, E1, strike_app. reflexivity. }
  unfold from_positional in E4. fold (positional param) in E4.
  destruct (positional param) eqn:Hp.
  - assert (Hn : names param = []).
    { unfold positional in Hp. apply andb_prop in Hp as [Hs Hl].
      apply negb_true_iff in Hs, Hl. unfold names. now rewrite Hs, Hl. }
    rewrite Hn, strike_nil in H3.
    destruct (underscore (raw st3)) as [[|tok rest]|] eqn:Hu; [| |discriminate].
    + injection E4 as <-. rewrite H3 in *. now rewrite shift_empty.
    + destruct (parser _ _ _) as [res|x]; [|discriminate]. injection E4 as <-.
      rewrite raw_store. cbn. rewrite H3 in *. unfold shift. now rewrite Hu.
  - injection E4 as <-. exact H3.
Qed.

Lemma skipn_tail {A} (n : nat) (l : list A) : skipn n (tail l) = skipn (S n) l.
Proof. destruct l; [now rewrite skipn_nil|reflexivity]. Qed.

Lemma resolve_all_raw params st st' :
  Forall (fun kp => ~ In reserved (names (snd kp))) params ->
  resolve_all num_truthy params st = Ok st' ->
  named (raw st')
  = List.filter
      (fun kv => negb (existsb (String.eqb (fst kv))
                         (flat_map (fun kp => names (snd kp)) params)))
      (named (raw st))
  /\ underscore (raw st')
     = option_map (skipn (length (List.filter is_positional params))) (underscore (raw st)).
Proof.
  intros Hall. revert st.
  induction Hall as [|[key param] rest Hres _ IH]; intros st; cbn [resolve_all].
  - intros [= <-]. cbn. split.
    + induction (named (raw st)) as [|kv l IHl]; cbn; [reflexivity|]. now rewrite <- IHl.
    + now destruct (underscore (raw st)).
  - destruct (resolve _ _ _ _) as [st1|x] eqn:E; [|discriminate]. cbn [bind].
    intros H. destruct (IH st1 H) as [Hn Hu]. cbn [snd] in Hres.
    apply (resolve_raw key param st st1 Hres) in E.
    cbn [flat_map List.filter snd]. change (is_positional (key, param)) with (positional param).
    destruct (positional param) eqn:Hp.
    + assert (Hnames : names param = []).
      { unfold positional in Hp. apply andb_prop in Hp as [Hs Hl].
        apply negb_true_iff in Hs, Hl. unfold names. now rewrite Hs, Hl. }
      rewrite Hnames. cbn [app length]. rewrite Hn, Hu, E. cbn. split; [reflexivity|].
      destruct (underscore (raw st)) as [toks|]; cbn; [|reflexivity].
      now rewrite skipn_tail.
    + rewrite Hn, Hu, E. cbn. split; [|reflexivity].
      rewrite filter_twice. apply filter_ext. intros kv.
      now rewrite existsb_app, negb_orb.
Qed.

Lemma normalised_declared params :
  flat_map (fun kp => names (snd kp)) (map (fun kp => (fst kp, normalise (snd kp))) params)
  = declared params.
Proof.
  unfold declared. induction params as [|[key param] rest IH]; [reflexivity|].
  cbn [map flat_map fst snd]. now rewrite IH.
Qed.

Lemma normalised_positional params :
  length (List.filter is_positional (map (fun kp => (fst kp, normalise (snd kp))) params))
  = length (List.filter is_positional params).
Proof.
  induction params as [|[key param] rest IH]; [reflexivity|].
  cbn [map List.filter fst snd].
  change (is_positional (key, normalise param)) with (positional (normalise param)).
  change (is_positional (key, param)) with (positional param).
  rewrite positional_normalise. destruct (positional param); cbn [length]; now rewrite IH.
Qed.

(** X11: when no alias is the reserved name, what [parse] reports as
    unexpected is fixed by the splitter's answer and the shape of the
    schema: the positional tokens beyond the number of pure positional
    parameters (the empty string left out), then the names the splitter
    bound that no parameter declares, both in the splitter's order; a
    result is returned only when there is none. *)
Theorem unexpected_is_undeclared (s : Input) params a e h :
  Forall (fun kp => ~ In reserved (aliases (snd kp))) params ->
  fst (parse num_truthy minimist s params) = Ok (a, e, h) ->
  let leftover :=
    unclaimed
      (skipn (length (List.filter is_positional params))
         (pa_positional (split_args minimist s params)))
      (List.filter (fun kv => negb (existsb (String.eqb (fst kv)) (declared params)))
         (pa_named (split_args minimist s params))) in
  (forall report, e = Some report -> unexpected report = leftover)
  /\ (forall result, a = Some result -> leftover = []).
Proof.
  intros Hall Hp leftover.
  destruct (resolved num_truthy minimist s params) as [stf|x] eqn:Hres.
  2:{ rewrite parse_unfold, Hres in Hp. discriminate Hp. }
  destruct (parse_reports num_truthy minimist s params stf a e h Hres Hp)
    as (rest & st' & Hu & Hc & _ & _ & _ & Hx).
  rewrite resolved_normalised in Hres.
  apply resolve_all_raw in Hres as [Hn Hu'].
  2:{ apply Forall_forall. intros [k p'] Hin.
      apply list_elem_of_In, normalised_in in Hin as (p & Hin & ->).
      rewrite Forall_forall in Hall. apply (Hall (k, p)). now apply list_elem_of_In. }
  rewrite normalised_declared in Hn. rewrite normalised_positional in Hu'.
  rewrite Hu in Hu'. cbn in Hu', Hn. injection Hu' as ->.
  assert (Hl : unexpected (errors st') = leftover).
  { rewrite Hx, Hn. reflexivity. }
  apply conclude_either_or in Hc as [(-> & -> & _ & _ & Hnone)|(-> & -> & _)].
  - split; [discriminate|]. intros _ _. now rewrite <- Hl.
  - split; [|discriminate]. now intros report [= <-].
Qed.

(** *** Calls that throw *)

Lemma parser_throw param v e :
  parser num_truthy param v = Throw e ->
  exists f x, type param = Some (TypeParser f) /\ f v = ThrowsOther x /\ e = Uncaught x.
Proof.
  unfold parser. destruct (type param) as [[|f]|]; try discriminate.
  destruct (f v) as [y|err|x] eqn:E; try discriminate. intros [= <-]. eauto.
Qed.

Lemma consult_throw key param src st e :
  consult num_truthy key param src st = Throw e ->
  (e = TypeError /\ underscore (raw st) = None)
  \/ exists f v x, type param = Some (TypeParser f) /\ f v = ThrowsOther x
                   /\ e = Uncaught x.
Proof.
  destruct src as [| |a|]; cbn [consult].
  - unfold from_default. destruct (default param) as [d|]; [destruct (str_truthy d)|];
      try discriminate.
    destruct (parser _ _ _) as [res|x] eqn:E; [discriminate|]. intros [= <-].
    apply parser_throw in E as (f & y & H1 & H2 & H3). right. eauto 6.
  - unfold from_short. destruct (short param) as [a|]; [destruct (_ && _)|];
      try discriminate.
    destruct (parser _ _ _) as [res|x] eqn:E; [discriminate|]. intros [= <-].
    apply parser_throw in E as (f & y & H1 & H2 & H3). right. eauto 6.
  - unfold from_alias. destruct (raw_in a (raw st)); [|discriminate].
    destruct (parser _ _ _) as [res|x] eqn:E; [discriminate|]. intros [= <-].
    apply parser_throw in E as (f & y & H1 & H2 & H3). right. eauto 6.
  - unfold from_positional. destruct (_ && _); [|discriminate].
    destruct (underscore (raw st)) as [[|tok rest]|]; [discriminate| |].
    + destruct (parser _ _ _) as [res|x] eqn:E; [discriminate|]. intros [= <-].
      apply parser_throw in E as (f & y & H1 & H2 & H3). right. eauto 6.
    + intros [= <-]. now left.
Qed.

Lemma underscore_delete_cases a r :
  underscore (raw_delete a r) = if String.eqb a reserved then None else underscore r.
Proof. unfold raw_delete. now destruct (String.eqb a reserved). Qed.

Lemma consult_none_back key param src st st' :
  In src (sources param) ->
  consult num_truthy key param src st = Ok st' ->
  underscore (raw st') = None ->
  underscore (raw st) = None \/ In reserved (names param).
Proof.
  intros Hsrc H. consult_cases H; try (now left);
    rewrite ?raw_store; try (destruct (is_bool param)); rewrite ?raw_or_assign; cbn;
    rewrite ?underscore_delete_cases; try discriminate; try (now left);
    try (intros Hn; congruence).
  all: match goal with
       | |- context [String.eqb ?b reserved] =>
           destruct (String.eqb b reserved) eqn:Eb; [|intros Hn; left; exact Hn];
           apply String.eqb_eq in Eb; subst b; intros _; right
       end.
  all: first [eapply short_in_names; eassumption | now apply alias_in_names].
Qed.

Lemma consult_none_forward key param src st st' :
  consult num_truthy key param src st = Ok st' ->
  underscore (raw st) = None -> underscore (raw st') = None.
Proof.
  intros H Hn. consult_cases H; try exact Hn;
    rewrite ?raw_store; try (destruct (is_bool param)); rewrite ?raw_or_assign; cbn;
    rewrite ?underscore_delete_cases; try (now destruct (String.eqb _ reserved));
    congruence.
Qed.

Lemma consult_strikes key param src st st' :
  strikes_reserved param src ->
  consult num_truthy key param src st = Ok st' ->
  underscore (raw st') = None.
Proof.
  intros [->|[-> Hs]]; cbn [consult].
  - unfold from_alias, raw_in. cbn [String.eqb Ascii.eqb reserved].
    change (String.eqb reserved reserved) with true. cbn iota.
    destruct (underscore (raw st)) eqn:Hu; [|intros [= <-]; exact Hu].
    destruct (parser _ _ _) as [[val|err]|x]; [| |discriminate]; intros [= <-];
      [destruct (is_bool param)|]; rewrite ?raw_or_assign; reflexivity.
  - unfold from_short. rewrite Hs. unfold raw_in.
    change (String.eqb reserved reserved) with true.
    change (str_truthy reserved) with true. cbn [andb]. cbn iota.
    destruct (underscore (raw st)) eqn:Hu; [|intros [= <-]; exact Hu].
    destruct (parser _ _ _) as [res|x]; [|discriminate]. intros [= <-].
    rewrite raw_store. reflexivity.
Qed.

Lemma consult_all_throw key param srcs st e :
  incl srcs (sources param) ->
  consult_all num_truthy key param srcs st = Throw e ->
  (e = TypeError /\ (underscore (raw st) = None \/ In reserved (names param)))
  \/ exists f v x, type param = Some (TypeParser f) /\ f v = ThrowsOther x
                   /\ e = Uncaught x.
Proof.
  revert st. induction srcs as [|src srcs IH]; intros st Hincl; cbn [consult_all];
    [discriminate|].
  assert (Hsrc : In src (sources param)) by (apply Hincl; now left).
  assert (Hrest : incl srcs (sources param)) by (intros y Hy; apply Hincl; now right).
  destruct (consult _ _ _ _ _) as [st1|x] eqn:E; cbn [bind].
  - intros H. destruct (IH st1 Hrest H) as [[-> [Hn|Hr]]|Hc]; [| |now right].
    + left. split; [reflexivity|]. now apply (consult_none_back key param src st st1).
    + left. split; [reflexivity|now right].
  - intros [= <-]. apply consult_throw in E as [[-> Hn]|Hc]; [|now right].
    left. split; [reflexivity|now left].
Qed.

Lemma consult_all_none_back key param srcs st st' :
  incl srcs (sources param) ->
  consult_all num_truthy key param srcs st = Ok st' ->
  underscore (raw st') = None ->
  underscore (raw st) = None \/ In reserved (names param).
Proof.
  revert st. induction srcs as [|src srcs IH]; intros st Hincl; cbn [consult_all].
  - intros [= <-]. now left.
  - assert (Hsrc : In src (sources param)) by (apply Hincl; now left).
    assert (Hrest : incl srcs (sources param)) by (intros y Hy; apply Hincl; now right).
    destruct (consult _ _ _ _ _) as [st1|x] eqn:E; [|discriminate]. cbn [bind].
    intros H Hn. destruct (IH st1 Hrest H Hn) as [H1|Hr]; [|now right].
    now apply (consult_none_back key param src st st1).
Qed.

Lemma resolve_throw key param st e :
  resolve num_truthy key param st = Throw e ->
  (e = TypeError /\ (underscore (raw st) = None \/ In reserved (names param)))
  \/ exists f v x, type param = Some (TypeParser f) /\ f v = ThrowsOther x
                   /\ e = Uncaught x.
Proof.
  rewrite resolve_as_sources.
  destruct (consult_all _ _ _ _ _) as [st1|x] eqn:E; [discriminate|]. intros [= <-].
  apply (consult_all_throw key param (sources param) st); [apply incl_refl|exact E].
Qed.

Lemma resolve_none_back key param st st' :
  resolve num_truthy key param st = Ok st' ->
  underscore (raw st') = None ->
  underscore (raw st) = None \/ In reserved (names param).
Proof.
  rewrite resolve_as_sources.
  destruct (consult_all _ _ _ _ _) as [st1|x] eqn:E; [|discriminate]. intros [= <-].
  rewrite raw_or_missing.
  apply (consult_all_none_back key param (sources param) st); [apply incl_refl|exact E].
Qed.

Lemma resolve_all_none_back params st st' :
  resolve_all num_truthy params st = Ok st' ->
  underscore (raw st') = None ->
  underscore (raw st) = None
  \/ Exists (fun kp => In reserved (names (snd kp))) params.
Proof.
  revert st. induction params as [|[key param] rest IH]; intros st; cbn [resolve_all].
  - intros [= <-]. now left.
  - destruct (resolve _ _ _ _) as [st1|x] eqn:E; [|discriminate]. cbn [bind].
    intros H Hn. destruct (IH st1 H Hn) as [H1|Hr]; [|right; now apply Exists_cons_tl].
    destruct (resolve_none_back key param st st1 E H1) as [H0|Hr]; [now left|].
    right. now apply Exists_cons_hd.
Qed.

Lemma resolve_all_throw params st e :
  resolve_all num_truthy params st = Throw e ->
  (e = TypeError
   /\ (underscore (raw st) = None
       \/ Exists (fun kp => In reserved (names (snd kp))) params))
  \/ exists key param f v x,
      In (key, param) params /\ type param = Some (TypeParser f)
      /\ f v = ThrowsOther x /\ e = Uncaught x.
Proof.
  revert st. induction params as [|[key param] rest IH]; intros st; cbn [resolve_all];
    [discriminate|].
  destruct (resolve _ _ _ _) as [st1|x] eqn:E; cbn [bind].
  - intros H. destruct (IH st1 H) as [[-> [Hn|Hr]]|(k & p & f & v & y & Hin & Hc)].
    + left. split; [reflexivity|].
      destruct (resolve_none_back key param st st1 E Hn) as [H0|Hr]; [now left|].
      right. now apply Exists_cons_hd.
    + left. split; [reflexivity|]. right. now apply Exists_cons_tl.
    + right. exists k, p, f, v, y. split; [now right|exact Hc].
  - intros [= <-]. apply resolve_throw in E as [[-> [Hn|Hr]]|(f & v & y & Hc)].
    + left. split; [reflexivity|now left].
    + left. split; [reflexivity|]. right. now apply Exists_cons_hd.
    + right. exists key, param, f, v, y. split; [now left|exact Hc].
Qed.

Lemma normalised_reserved params :
  Exists (fun kp => In reserved (names (snd kp)))
    (map (fun kp => (fst kp, normalise (snd kp))) params) ->
  Exists (fun kp => In reserved (aliases (snd kp))) params.
Proof.
  induction params as [|[key param] rest IH]; cbn [map fst snd]; intros H;
    inversion H; subst; [now apply Exists_cons_hd|apply Exists_cons_tl; auto].
Qed.

Lemma throws_classified_aux (s : Input) params e :
  fst (parse num_truthy minimist s params) = Throw e ->
  (e = TypeError /\ Exists (fun kp => In reserved (aliases (snd kp))) params)
  \/ exists key param f v x,
      In (key, param) params /\ type param = Some (TypeParser f)
      /\ f v = ThrowsOther x /\ e = Uncaught x.
Proof.
  rewrite parse_unfold.
  destruct (resolved num_truthy minimist s params) as [stf|x] eqn:Hres; cbn [bind].
  - unfold leftovers. destruct (underscore (raw stf)) as [rest|] eqn:Hu; [discriminate|].
    cbn [bind]. intros [= <-]. left. split; [reflexivity|].
    rewrite resolved_normalised in Hres.
    destruct (resolve_all_none_back _ _ _ Hres Hu) as [H0|Hr]; [discriminate H0|].
    now apply normalised_reserved.
  - intros [= <-]. rewrite resolved_normalised in Hres.
    apply resolve_all_throw in Hres
      as [[-> [H0|Hr]]|(k & p' & f & v & y & Hin & Hf & Hc)].
    + discriminate H0.
    + left. split; [reflexivity|now apply normalised_reserved].
    + right. apply normalised_in in Hin as (p & Hin & ->).
      exists k, p, f, v, y. split; [exact Hin|].
      destruct (normalise_fields p) as (_ & <- & _). now split.
Qed.

(** X12: a call that throws throws one of two things: a [TypeError], and
    then some parameter declares the reserved name as an alias; or what a
    coercion of the schema threw that was not a [ParseError]. *)
Theorem throws_are_classified (s : Input) params e :
  fst (parse num_truthy minimist s params) = Throw e ->
  (e = TypeError /\ Exists (fun kp => In reserved (aliases (snd kp))) params)
  \/ exists key param f v x,
      In (key, param) params /\ type param = Some (TypeParser f)
      /\ f v = ThrowsOther x /\ e = Uncaught x.
Proof. apply throws_classified_aux. Qed.

Lemma consult_all_none_forward key param srcs st st' :
  consult_all num_truthy key param srcs st = Ok st' ->
  underscore (raw st) = None -> underscore (raw st') = None.
Proof.
  apply (consult_all_inv
           (fun s1 s2 => underscore (raw s1) = None -> underscore (raw s2) = None)
           key param srcs); [auto|auto|].
  intros src s1 s2 H. now apply (consult_none_forward key param src).
Qed.

Lemma consult_all_strikes key param srcs st st' :
  Exists (strikes_reserved param) srcs ->
  consult_all num_truthy key param srcs st = Ok st' ->
  underscore (raw st') = None.
Proof.
  intros Hex. revert st. induction Hex as [src srcs Hs|src srcs _ IH]; intros st;
    cbn [consult_all].
  - destruct (consult _ _ _ _ _) as [st1|x] eqn:E; [|discriminate]. cbn [bind].
    intros H. apply (consult_all_none_forward key param srcs st1 st' H).
    now apply (consult_strikes key param src st st1).
  - destruct (consult _ _ _ _ _) as [st1|x] eqn:E; [|discriminate]. cbn [bind].
    apply IH.
Qed.

Lemma sources_strike param :
  In reserved (names param) -> Exists (strikes_reserved param) (sources param).
Proof.
  rewrite names_split. intros [Hs|Hl]%in_app_or; unfold sources.
  - apply Exists_cons_tl, Exists_cons_hd. right. split; [reflexivity|].
    unfold opt_truthy in Hs. destruct (short param) as [a|]; [|destruct Hs].
    destruct (str_truthy a); [|destruct Hs]. destruct Hs as [->|[]]. reflexivity.
  - apply Exists_cons_tl, Exists_cons_tl. apply Exists_app. left.
    unfold long_names in Hl. destruct (long_truthy (long param)); [|destruct Hl].
    apply Exists_exists. exists (FromAlias reserved). split; [|now left].
    apply list_elem_of_In, in_map_iff. eauto.
Qed.

Lemma resolve_reserved key param st st' :
  In reserved (names param) ->
  resolve num_truthy key param st = Ok st' ->
  underscore (raw st') = None.
Proof.
  intros Hr. rewrite resolve_as_sources.
  destruct (consult_all _ _ _ _ _) as [st1|x] eqn:E; [|discriminate]. intros [= <-].
  rewrite raw_or_missing.
  apply (consult_all_strikes key param (sources param) st st1); [|exact E].
  now apply sources_strike.
Qed.

Lemma resolve_none_forward key param st st' :
  resolve num_truthy key param st = Ok st' ->
  underscore (raw st) = None -> underscore (raw st') = None.
Proof.
  rewrite resolve_as_sources.
  destruct (consult_all _ _ _ _ _) as [st1|x] eqn:E; [|discriminate]. intros [= <-].
  rewrite raw_or_missing. now apply (consult_all_none_forward key param (sources param)).
Qed.

Lemma resolve_all_none_forward params st st' :
  resolve_all num_truthy params st = Ok st' ->
  underscore (raw st) = None -> underscore (raw st') = None.
Proof.
  revert st. induction params as [|[key param] rest IH]; intros st; cbn [resolve_all].
  - now intros [= <-].
  - destruct (resolve _ _ _ _) as [st1|x] eqn:E; [|discriminate]. cbn [bind].
    intros H Hn. apply (IH st1 H). now apply (resolve_none_forward key param st).
Qed.

Lemma resolve_all_reserved params st st' :
  Exists (fun kp => In reserved (names (snd kp))) params ->
  resolve_all num_truthy params st = Ok st' ->
  underscore (raw st') = None.
Proof.
  intros Hex. revert st.
  induction Hex as [[key param] rest Hr|[key param] rest _ IH]; intros st;
    cbn [resolve_all]; destruct (resolve _ _ _ _) as [st1|x] eqn:E; try discriminate;
    cbn [bind].
  - intros H. apply (resolve_all_none_forward rest st1 st' H).
    now apply (resolve_reserved key param st st1).
  - apply IH.
Qed.

Lemma reserved_normalised params :
  Exists (fun kp => In reserved (aliases (snd kp))) params ->
  Exists (fun kp => In reserved (names (snd kp)))
    (map (fun kp => (fst kp, normalise (snd kp))) params).
Proof.
  induction 1 as [[key param] rest H|[key param] rest _ IH]; cbn [map fst snd];
    [now apply Exists_cons_hd|now apply Exists_cons_tl].
Qed.

(** X13: when some parameter declares the reserved name [_] as an alias
    and no coercion throws anything but a [ParseError], the call returns
    nothing: it ends in a [TypeError]. *)
Theorem reserved_alias_throws (s : Input) params :
  Forall (fun kp => tame (snd kp)) params ->
  Exists (fun kp => In reserved (aliases (snd kp))) params ->
  fst (parse num_truthy minimist s params) = Throw TypeError.
Proof.
  intros Htame Hex.
  destruct (fst (parse num_truthy minimist s params)) as [[[a e] h]|e] eqn:Hp.
  - exfalso.
    destruct (resolved num_truthy minimist s params) as [stf|x] eqn:Hres.
    2:{ rewrite parse_unfold, Hres in Hp. discriminate Hp. }
    destruct (parse_reports num_truthy minimist s params stf a e h Hres Hp)
      as (rest & _ & Hu & _).
    rewrite resolved_normalised in Hres.
    apply resolve_all_reserved in Hres; [congruence|now apply reserved_normalised].
  - apply throws_classified_aux in Hp as [[-> _]|(k & p & f & v & y & Hin & Hf & Hv & _)];
      [reflexivity|].
    exfalso. rewrite Forall_forall in Htame.
    apply (Htame (k, p) (proj2 (list_elem_of_In _ _) Hin) f v y Hf Hv).
Qed.

(** *** A parameter that is offered nothing, a default that does not coerce *)

(** X15: a parameter that is offered nothing (no default, no alias for
    which [alias in raw] holds, no positional token) and whose field
    reads as unset ends in one of three ways: a flag is set to [false],
    an optional parameter is left out with no error, any other parameter
    is recorded under [missing]; nothing else changes.  When the name of
    the parameter is one that every object inherits, the field does not
    read as unset, and the iteration changes nothing at all. *)
Theorem nothing_offered key param st :
  offered param (raw st) = [] ->
  (positional param = true -> is_Some (underscore (raw st))) ->
  (field key st = None ->
   resolve num_truthy key param st
   = Ok (if is_bool param then set_arg key (VBool false) st
         else if optional param then st
         else push_missing key st))
  /\ (args st !! key = None -> inherited key = true ->
      resolve num_truthy key param st = Ok st).
Proof.
  intros Hoff Hu. rewrite resolve_nothing_offered by assumption.
  unfold or_missing, field. split.
  - now intros ->.
  - now intros -> ->.
Qed.




(** *** The two forms of the input *)

(** X14: a string input and a token-list input are treated alike once
    tokenized: a command line of plain words joined by spaces, or of
    quoted tokens, gives the call the same outcome and the same effect on
    the schema as the list of those words or tokens. *)
Theorem string_input_is_token_input params :
  (forall ws, Forall (fun w => Quoting.plain_word w = true) ws ->
     parse num_truthy minimist (InString (String.concat " " ws)) params
     = parse num_truthy minimist (InArray ws) params)
  /\ (forall ts, Forall (fun t => Tokenizer.nonempty t = true) ts ->
        parse num_truthy minimist (InString (Quoting.command ts)) params
        = parse num_truthy minimist (InArray ts) params).
Proof.
  split.
  - intros ws Hall. unfold parse. cbn [tokens].
    replace (Tokenizer.split (String.concat " " ws)) with ws; [reflexivity|].
    unfold Tokenizer.split. destruct ws as [|w ws]; [reflexivity|].
    rewrite scan_words by (assumption || discriminate).
    change (List.filter Tokenizer.nonempty ([] ++ "" :: w :: ws))
      with (List.filter Tokenizer.nonempty (w :: ws)).
    symmetry. apply filter_nonempty_all. eapply Forall_impl; [exact Hall|].
    apply plain_word_nonempty.
  - intros ts Hall. unfold parse. cbn [tokens].
    replace (Tokenizer.split (Quoting.command ts)) with ts; [reflexivity|].
    unfold Tokenizer.split. destruct ts as [|t ts]; [reflexivity|].
    rewrite scan_command by discriminate.
    change (List.filter Tokenizer.nonempty ([] ++ "" :: t :: ts))
      with (List.filter Tokenizer.nonempty (t :: ts)).
    symmetry. now apply filter_nonempty_all.
Qed.

(** *** Positional tokens in a schema of any shape *)





End ResolverMore.

(** ** The further properties at sample inputs *)

Lemma help_is_per_parameter_witness :
  exists a e h,
    fst (parse z_truthy splitter (InString "-v a.jpg -w 720 b.png") convert_schema)
    = Ok (a, e, h)
    /\ h = {| help_params := ["<in>"; "<out>"];
              help_options := ["-v"; "-w --width <width>"; "-r --rotate --rot <rotate=0>"] |}.
Proof.
  destruct (fst (parse z_truthy splitter (InString "-v a.jpg -w 720 b.png") convert_schema))
    as [[[a e] h]|x] eqn:E; [|vm_compute in E; discriminate E].
  exists a, e, h. split; [reflexivity|].
  exact (help_is_per_parameter z_truthy splitter _ convert_schema a e h E).
Defined.

Lemma convert_schema_keys : NoDup (map fst convert_schema).
Proof.
  repeat (constructor; [rewrite list_elem_of_In; cbn; intuition discriminate|]).
  constructor.
Defined.



Lemma result_is_complete_witness :
  exists result e h,
    fst (parse z_truthy splitter (InString "-v a.jpg -w 720 b.png") convert_schema)
    = Ok (Some result, e, h)
    /\ (exists b, result !! "verbose" = Some (VBool b))
    /\ defined (result !! "width").
Proof.
  destruct (fst (parse z_truthy splitter (InString "-v a.jpg -w 720 b.png") convert_schema))
    as [[[[result|] e] h]|x] eqn:E; try (vm_compute in E; discriminate E).
  exists result, e, h. split; [reflexivity|]. split.
  - refine (proj1 (result_is_complete z_truthy splitter _ convert_schema result e h
                     "verbose" verbose_short convert_schema_keys E _ eq_refl) eq_refl).
    cbn. right. right. left. reflexivity.
  - refine (proj2 (result_is_complete z_truthy splitter _ convert_schema result e h
                     "width" width convert_schema_keys E _ eq_refl) eq_refl eq_refl).
    cbn. right. right. right. left. reflexivity.
Defined.

Lemma missing_is_required_witness :
  exists a report h,
    fst (parse z_truthy splitter (InString "") fruit_long) = Ok (a, Some report, h)
    /\ sublist (missing report) ["fruit"].
Proof.
  destruct (fst (parse z_truthy splitter (InString "") fruit_long))
    as [[[a [report|]] h]|x] eqn:E; try (vm_compute in E; discriminate E).
  exists a, report, h. split; [reflexivity|].
  exact (missing_is_required z_truthy splitter _ fruit_long a report h E).
Defined.

Lemma invalid_is_typed_witness :
  exists a report h,
    fst (parse z_truthy splitter (InString "--count x") count_defaulted)
    = Ok (a, Some report, h)
    /\ exists param f, In ("count", param) count_defaulted
                       /\ type param = Some (TypeParser f).
Proof.
  destruct (fst (parse z_truthy splitter (InString "--count x") count_defaulted))
    as [[[a [report|]] h]|x] eqn:E; try (vm_compute in E; discriminate E).
  exists a, report, h. split; [reflexivity|].
  apply (invalid_is_typed z_truthy splitter _ count_defaulted a report h "count" E).
  vm_compute in E. injection E as _ <- _. vm_compute. eauto.
Defined.

Lemma result_has_declared_fields_witness :
  exists result e h,
    fst (parse z_truthy splitter (InString "apple carrot") fruit_vegetable)
    = Ok (Some result, e, h)
    /\ In "fruit" (map fst fruit_vegetable).
Proof.
  destruct (fst (parse z_truthy splitter (InString "apple carrot") fruit_vegetable))
    as [[[[result|] e] h]|x] eqn:E; try (vm_compute in E; discriminate E).
  exists result, e, h. split; [reflexivity|].
  apply (result_has_declared_fields z_truthy splitter _ fruit_vegetable result e h "fruit" E).
  vm_compute in E. injection E as <- _ _. vm_compute. eauto.
Defined.

Lemma unexpected_is_undeclared_witness :
  exists a e h,
    fst (parse z_truthy splitter (InString "a b c --fruit apple") fruit_vegetable)
    = Ok (a, e, h)
    /\ forall report, e = Some report -> unexpected report = [VStr "c"; VStr "fruit"].
Proof.
  destruct (fst (parse z_truthy splitter (InString "a b c --fruit apple") fruit_vegetable))
    as [[[a e] h]|x] eqn:E; [|vm_compute in E; discriminate E].
  exists a, e, h. split; [reflexivity|].
  refine (proj1 (unexpected_is_undeclared z_truthy splitter _ fruit_vegetable a e h _ E)).
  repeat constructor; cbn; intros [].
Defined.

Lemma throws_are_classified_witness :
  fst (parse z_truthy splitter (InString "a") crash_schema) = Throw (Uncaught (VStr "a"))
  /\ exists key param f v x,
      In (key, param) crash_schema /\ type param = Some (TypeParser f)
      /\ f v = ThrowsOther x /\ Uncaught (VStr "a") = Uncaught x.
Proof.
  split; [reflexivity|].
  destruct (throws_are_classified z_truthy splitter (InString "a") crash_schema
              (Uncaught (VStr "a")) eq_refl) as [[H _]|H]; [discriminate H|exact H].
Defined.

Lemma reserved_alias_throws_witness :
  fst (parse z_truthy splitter (InString "a") reserved_schema) = Throw TypeError.
Proof.
  apply reserved_alias_throws.
  - repeat constructor; intros f arg x H; discriminate H.
  - apply Exists_cons_hd. cbn. left. reflexivity.
Defined.

Lemma string_input_is_token_input_witness :
  parse z_truthy splitter (InString "apple carrot") fruit_vegetable
  = parse z_truthy splitter (InArray ["apple"; "carrot"]) fruit_vegetable.
Proof.
  apply (proj1 (string_input_is_token_input z_truthy splitter fruit_vegetable)
           ["apple"; "carrot"]).
  repeat constructor.
Defined.

Lemma nothing_offered_witness :
  resolve z_truthy "fruit" optional_fruit (start (splitter ["-x"] ["fruit"] []))
  = Ok (start (splitter ["-x"] ["fruit"] [])).
Proof.
  apply (proj1 (nothing_offered z_truthy "fruit" optional_fruit
                  (start (splitter ["-x"] ["fruit"] []))
                  eq_refl (fun H => False_ind _ (diff_false_true H)))).
  reflexivity.
Defined.

